(** * EarthStudio: keyframe timeline, playback clock and export pipeline

A shallow embedding of the JavaScript sources

- [js/interpolation.js]        (module [Interpolation])
- [js/keyframe-manager.js]     (modules [Keyframe], [KeyframeManager])
- [js/animation-controller.js] (module [AnimationController])
- [js/cesium-manager.js]       (module [CesiumManager])
- [js/video-exporter.js]       (module [VideoExporter])

Conventions of the embedding.

- A finite JavaScript number is the rational it denotes ([Q]); values
  that are merely stored, copied or compared are handled as such.
  Arithmetic rounds as IEEE 754 binary64 does (module [Double]): the
  result of an operation is the double nearest to the exact result, ties
  to even, and is [None] when that is not a finite number (overflow,
  division by zero).  [None] stands for every outcome the model does not
  follow further: [NaN], an infinity, an exception, a loop that does not
  end; it is passed on by every operation.
- [Math.pow] is left to the engine by the language standard; it is a
  parameter ([Engine]).
- A JavaScript object that is shared and mutated in place (a [Keyframe])
  lives in a store and is named by its address; arrays of such objects
  are lists of addresses.
- Calls into collaborators (renderer, DOM, network, listeners) are
  recorded in a trace, oldest first.  Answers of the outside world
  (clock readings, HTTP responses, captured images, the user's cancel
  click) are inputs of the step functions. *)

From Stdlib Require Import QArith Qround Qabs Qpower Qreduction Lqa ZArith Lia.
From Stdlib Require Import Sorted Permutation DecimalString.
From stdpp Require Import list strings sorting.

Open Scope Q_scope.

(** ** Numbers *)

(** [a % b] on numbers: the remainder has the sign of the dividend
    (truncated division). *)
Definition Qtruncate (x : Q) : Z :=
  if Qlt_le_dec x 0 then Qceiling x else Qfloor x.

Definition Qrem (a b : Q) : Q := a - b * inject_Z (Qtruncate (a / b)).

(** [Math.max] and [Math.min] on two numbers. *)
Definition Qmax (a b : Q) : Q := if Qlt_le_dec a b then b else a.
Definition Qmin (a b : Q) : Q := if Qlt_le_dec a b then a else b.

(** *** Binary64 arithmetic *)

Module Double.

Definition pow2 (k : Z) : Q := 2 ^ k.

(** [floor (log2 q)] of a positive number: the quotient [n / d] lies
    between [2^(k-1)] and [2^(k+1)] for [k = log2 n - log2 d]. *)
Definition ilog2 (q : Q) : Z :=
  let k := (Z.log2 (Qnum q) - Z.log2 (Zpos (Qden q)))%Z in
  if Qle_bool (pow2 k) q then k else (k - 1)%Z.

(** The exponent of the unit in the last place of the doubles around
    [q]: 53 significant bits, and no exponent below that of the
    subnormal numbers. *)
Definition exponent (q : Q) : Z := Z.max (ilog2 (Qabs q) - 52) (-1074).

(** The nearest integer, the even one of two that are equally near. *)
Definition nearestEven (x : Q) : Z :=
  let f := Qfloor x in
  match Qcompare (x - inject_Z f) (1 # 2) with
  | Lt => f
  | Gt => (f + 1)%Z
  | Eq => if Z.even f then f else (f + 1)%Z
  end.

(** Rounding to nearest, ties to even, with unbounded exponent above. *)
Definition round (q : Q) : Q :=
  let q := Qred q in
  if Qeq_bool q 0 then 0
  else
    let e := exponent q in
    Qred (inject_Z (nearestEven (q / pow2 e)) * pow2 e).

(** [Number.MAX_VALUE] *)
Definition maxValue : Q := inject_Z (2 ^ 53 - 1) * pow2 971.

(** The double that an exact result is rounded to; beyond the largest
    double the result is an infinity. *)
Definition fl (q : Q) : option Q :=
  let r := round q in
  if Qle_bool (Qabs r) maxValue then Some r else None.

(** The value of a decimal literal of the source text. *)
Definition double (literal : Q) : option Q := fl literal.

Definition add (x y : option Q) : option Q := a ← x; b ← y; fl (a + b).
Definition sub (x y : option Q) : option Q := a ← x; b ← y; fl (a - b).
Definition mul (x y : option Q) : option Q := a ← x; b ← y; fl (a * b).

(** Division by zero gives an infinity or [NaN]. *)
Definition div (x y : option Q) : option Q :=
  a ← x; b ← y; if Qeq_bool b 0 then None else fl (a / b).

(** [Math.abs] *)
Definition abs (x : option Q) : option Q := Qabs <$> x.

(** [x < y]; [x > y] is [lt y x]. *)
Definition lt (x y : option Q) : option bool :=
  a ← x; b ← y; Some (if Qlt_le_dec a b then true else false).

(** [q] is the value of a double. *)
Definition isDouble (q : Q) : bool :=
  match fl q with
  | Some r => Qeq_bool r q
  | None => false
  end.

(** [x] is a finite number of value [v]. *)
Definition returns (x : option Q) (v : Q) : Prop :=
  exists r, x = Some r /\ r == v.

(** [q] has a significand of 53 bits and an exponent that is not below
    the least one. *)
Definition representable (q : Q) : Prop :=
  exists m e : Z,
    (Z.abs m < 2 ^ 53)%Z /\ (-1074 <= e)%Z /\ q == inject_Z m * pow2 e.

End Double.

Infix "⊕" := Double.add (at level 50, left associativity).
Infix "⊖" := Double.sub (at level 50, left associativity).
Infix "⊗" := Double.mul (at level 40, left associativity).
Infix "⊘" := Double.div (at level 40, left associativity).

(** What the language leaves to the engine: [Math.pow] returns "an
    implementation-approximated value" outside its special cases. *)
Class Engine := {
  mathPow : Q -> Q -> option Q
}.

(** ** js/interpolation.js *)

Module Interpolation.
Import Double.

Section WithEngine.
Context {engine : Engine}.

(** [Math.pow(x, y)] *)
Definition pow (x y : option Q) : option Q := a ← x; b ← y; mathPow a b.

Definition linear (t : option Q) : option Q := t.

Definition easeIn (t : option Q) : option Q := t ⊗ t ⊗ t.

Definition easeOut (t : option Q) : option Q :=
  double 1 ⊖ pow (double 1 ⊖ t) (double 3).

Definition easeInOut (t : option Q) : option Q :=
  early ← lt t (double 0.5);
  if early : bool
  then double 4 ⊗ t ⊗ t ⊗ t
  else double 1 ⊖ pow (double (-2) ⊗ t ⊕ double 2) (double 3) ⊘ double 2.

Section Bezier.
Variables p1 p2 p3 p4 : option Q.

Definition cx : option Q := double 3 ⊗ p1.
Definition bx : option Q := double 3 ⊗ (p3 ⊖ p1) ⊖ cx.
Definition ax : option Q := double 1 ⊖ cx ⊖ bx.

Definition cy : option Q := double 3 ⊗ p2.
Definition by_ : option Q := double 3 ⊗ (p4 ⊖ p2) ⊖ cy.
Definition ay : option Q := double 1 ⊖ cy ⊖ by_.

Definition sampleCurveX (t : option Q) : option Q :=
  ((ax ⊗ t ⊕ bx) ⊗ t ⊕ cx) ⊗ t.
Definition sampleCurveY (t : option Q) : option Q :=
  ((ay ⊗ t ⊕ by_) ⊗ t ⊕ cy) ⊗ t.

(** The Newton-Raphson loop [for (let i = 0; i < 8; i++)]; [n] is the
    number of iterations still allowed, both [break]s leave the loop with
    the current estimate. *)
Fixpoint newton (n : nat) (t t2 : option Q) : option Q :=
  match n with
  | O => t2
  | S n' =>
      let x := sampleCurveX t2 ⊖ t in
      close ← lt (abs x) (double 0.001);
      if close : bool then t2
      else
        let d := (double 3 ⊗ ax ⊗ t2 ⊕ double 2 ⊗ bx) ⊗ t2 ⊕ cx in
        flat ← lt (abs d) (double 0.000001);
        if flat : bool then t2
        else newton n' t (t2 ⊖ x ⊘ d)
  end.

Definition bezier (t : option Q) : option Q := sampleCurveY (newton 8 t t).
End Bezier.

(** The five easing kinds of the data model. *)
Definition easingKinds : list string :=
  ["linear"; "easeIn"; "easeOut"; "easeInOut"; "bezier"]%string.

(** [this[type]] finds every member of the object and of
    [Object.prototype], not only the easing functions.  Called with [t]
    alone:
    - [constructor] is [Object], which wraps [t]; the wrapper counts as
      [t] in the arithmetic that follows; *)
Definition wrapping : list string := ["constructor"]%string.

(** - these return [false], which counts as 0; *)
Definition refusing : list string :=
  ["hasOwnProperty"; "isPrototypeOf"; "propertyIsEnumerable"]%string.

(** - these return [NaN], [undefined], a string or an object, all of
      which count as [NaN], or they throw a [TypeError] ([__proto__]
      is not a function; [slerp] and [interpolateCartesian3] read a
      field of [undefined]; the two definers want a function). *)
Definition failing : list string :=
  ["interpolate"; "interpolateCartesian3"; "interpolateAngle"; "slerp";
   "toString"; "toLocaleString"; "valueOf"; "__proto__";
   "__defineGetter__"; "__defineSetter__";
   "__lookupGetter__"; "__lookupSetter__"]%string.

(** [this[type] ? this[type](t) : this.linear(t)]; [bezier] is called
    with [t] alone, so its control points take their default values. *)
Definition easedT (type : string) (t : option Q) : option Q :=
  if String.eqb type "linear" then linear t
  else if String.eqb type "easeIn" then easeIn t
  else if String.eqb type "easeOut" then easeOut t
  else if String.eqb type "easeInOut" then easeInOut t
  else if String.eqb type "bezier"
  then bezier (double 0.42) (double 0) (double 0.58) (double 1) t
  else if bool_decide (type ∈ wrapping) then t
  else if bool_decide (type ∈ refusing) then double 0
  else if bool_decide (type ∈ failing) then None
  else linear t.

Definition interpolate (a b t : option Q) (type : string) : option Q :=
  let easedT := easedT type t in
  a ⊕ (b ⊖ a) ⊗ easedT.

(** [while (angle > 180) angle -= 360;] with [n] tests of the guard
    allowed. *)
Fixpoint whileAbove (n : nat) (angle : option Q) : option Q :=
  match n with
  | O => None
  | S n' =>
      above ← lt (double 180) angle;
      if above : bool then whileAbove n' (angle ⊖ double 360) else angle
  end.

(** [while (angle < -180) angle += 360;] with [n] tests of the guard
    allowed. *)
Fixpoint whileBelow (n : nat) (angle : option Q) : option Q :=
  match n with
  | O => None
  | S n' =>
      below ← lt angle (double (-180));
      if below : bool then whileBelow n' (angle ⊕ double 360) else angle
  end.

(** A step of 360 that rounds back to the angle it started from leaves
    the guard true for ever. *)
Definition stuck (a : Q) : bool :=
  match fl (a - 360), fl (a + 360) with
  | Some down, Some up =>
      (if Qlt_le_dec 180 a then Qeq_bool down a else false)
      || (if Qlt_le_dec a (-(180)) then Qeq_bool up a else false)
  | _, _ => false
  end.

(** A number of tests after which a loop that has not ended never ends:
    as long as a rounded step of 360 changes the angle at all, it changes
    it by more than 180. *)
Definition tests (angle : option Q) : nat :=
  match angle with
  | Some a =>
      if stuck a then 1%nat else S (Z.to_nat (Qceiling (Qabs a / 180)))
  | None => O
  end.

Definition normalizeAngle (angle : option Q) : option Q :=
  let angle := whileAbove (tests angle) angle in
  whileBelow (tests angle) angle.

(** The difference that [interpolateAngle] scales, from the two
    normalized angles: [let diff = end - start; if (diff > 180) diff -=
    360; if (diff < -180) diff += 360;] *)
Definition shortestDelta (start end_ : option Q) : option Q :=
  let diff := end_ ⊖ start in
  over ← lt (double 180) diff;
  let diff := if over : bool then diff ⊖ double 360 else diff in
  under ← lt diff (double (-180));
  if under : bool then diff ⊕ double 360 else diff.

Definition interpolateAngle (start end_ t : option Q) (type : string)
    : option Q :=
  let easedT := easedT type t in
  let start := normalizeAngle start in
  let end_ := normalizeAngle end_ in
  let diff := shortestDelta start end_ in
  normalizeAngle (start ⊕ diff ⊗ easedT).

End WithEngine.

End Interpolation.

(** ** js/keyframe-manager.js *)

(** The object literal with the camera fields that the UI and the
    [Keyframe] constructor exchange; [fov] may be missing. *)
Module CameraData.
Record t := mk {
  latitude : Q;
  longitude : Q;
  height : Q;
  heading : Q;
  pitch : Q;
  roll : Q;
  fov : option Q
}.
End CameraData.

(** A keyframe of a project document, which is also the shape of the plain
    object built by [Keyframe.toJSON].  A document may leave [fov] and
    [interpolationType] out. *)
Module KeyframeJSON.
Record t := mk {
  time : Q;
  latitude : Q;
  longitude : Q;
  height : Q;
  heading : Q;
  pitch : Q;
  roll : Q;
  fov : option Q;
  interpolationType : option string
}.
End KeyframeJSON.

Module Keyframe.

(** The fields of an instance. *)
Record t := mk {
  time : Q;
  latitude : Q;
  longitude : Q;
  height : Q;
  heading : Q;
  pitch : Q;
  roll : Q;
  fov : Q;
  interpolationType : string
}.

(** [x || 60] on a field that holds a number or is missing: the default
    is taken when the field is missing and when it is the number zero. *)
Definition orDefault (x : option Q) (d : Q) : Q :=
  match x with
  | None => d
  | Some v => if Qeq_bool v 0 then d else v
  end.

(** [constructor(time, cameraData, interpolationType = 'easeInOut')] *)
Definition new (time : Q) (cameraData : CameraData.t)
    (interpolationType : option string) : t :=
  {| time := time;
     latitude := CameraData.latitude cameraData;
     longitude := CameraData.longitude cameraData;
     height := CameraData.height cameraData;
     heading := CameraData.heading cameraData;
     pitch := CameraData.pitch cameraData;
     roll := CameraData.roll cameraData;
     fov := orDefault (CameraData.fov cameraData) 60;
     interpolationType := default "easeInOut"%string interpolationType |}.

Definition toJSON (this : t) : KeyframeJSON.t :=
  {| KeyframeJSON.time := time this;
     KeyframeJSON.latitude := latitude this;
     KeyframeJSON.longitude := longitude this;
     KeyframeJSON.height := height this;
     KeyframeJSON.heading := heading this;
     KeyframeJSON.pitch := pitch this;
     KeyframeJSON.roll := roll this;
     KeyframeJSON.fov := Some (fov this);
     KeyframeJSON.interpolationType := Some (interpolationType this) |}.

Definition fromJSON (data : KeyframeJSON.t) : t :=
  new (KeyframeJSON.time data)
    {| CameraData.latitude := KeyframeJSON.latitude data;
       CameraData.longitude := KeyframeJSON.longitude data;
       CameraData.height := KeyframeJSON.height data;
       CameraData.heading := KeyframeJSON.heading data;
       CameraData.pitch := KeyframeJSON.pitch data;
       CameraData.roll := KeyframeJSON.roll data;
       CameraData.fov := KeyframeJSON.fov data |}
    (KeyframeJSON.interpolationType data).

(** The partial object given to [Object.assign(keyframe, newData)]. *)
Record patch := mkPatch {
  newTime : option Q;
  newLatitude : option Q;
  newLongitude : option Q;
  newHeight : option Q;
  newHeading : option Q;
  newPitch : option Q;
  newRoll : option Q;
  newFov : option Q;
  newInterpolationType : option string
}.

(** [Object.assign(this, newData)]: every field present in [newData]
    overwrites the field of the instance, the others are kept. *)
Definition assign (newData : patch) (this : t) : t :=
  {| time := default (time this) (newTime newData);
     latitude := default (latitude this) (newLatitude newData);
     longitude := default (longitude this) (newLongitude newData);
     height := default (height this) (newHeight newData);
     heading := default (heading this) (newHeading newData);
     pitch := default (pitch this) (newPitch newData);
     roll := default (roll this) (newRoll newData);
     fov := default (fov this) (newFov newData);
     interpolationType :=
       default (interpolationType this) (newInterpolationType newData) |}.

Definition noChange : patch :=
  mkPatch None None None None None None None None None.

End Keyframe.

#[export] Instance Keyframe_inhabited : Inhabited Keyframe.t :=
  populate (Keyframe.mk 0 0 0 0 0 0 0 0 "").

(** [Array.prototype.sort(compare)].  The language fixes the result for a
    consistent comparator: the elements in ascending order of [compare],
    elements that compare equal in their original order (the sort is
    stable).  Insertion from the right end computes that result. *)
Section ArraySort.
Context {A : Type} (compare : A -> A -> Q).

Fixpoint sortInsert (x : A) (l : list A) : list A :=
  match l with
  | [] => [x]
  | y :: l' =>
      if Qlt_le_dec 0 (compare x y) then y :: sortInsert x l'
      else x :: l
  end.

Definition arraySort (l : list A) : list A := foldr sortInsert [] l.
End ArraySort.

(** [Array.prototype.indexOf] with the [-1] of "not found" as [None];
    elements are compared by identity. *)
Fixpoint indexOf (a : nat) (l : list nat) : option nat :=
  match l with
  | [] => None
  | b :: l' => if Nat.eqb a b then Some O else S <$> indexOf a l'
  end.

Module KeyframeManager.

(** Notifications sent through [emit]. *)
Inductive event :=
| keyframeAdded (keyframe : nat)
| keyframeRemoved (keyframe : nat)
| keyframeUpdated (keyframe : nat)
| keyframeSelected (keyframe : option nat)
| keyframesChanged (keyframes : list nat).

(** The manager together with the store of the [Keyframe] objects.  An
    object is named by its address in [store]; objects are never freed,
    so every address held by the manager points into the store. *)
Record t := mk {
  store : list Keyframe.t;
  keyframes : list nat;
  selectedKeyframe : option nat;
  emitted : list event
}.

Definition empty : t := mk [] [] None [].

Definition emit (e : event) (this : t) : t :=
  mk (store this) (keyframes this) (selectedKeyframe this)
     (emitted this ++ [e]).

Definition setKeyframes (l : list nat) (this : t) : t :=
  mk (store this) l (selectedKeyframe this) (emitted this).

Definition setSelected (s : option nat) (this : t) : t :=
  mk (store this) (keyframes this) s (emitted this).

(** [new Keyframe(...)]: a fresh object and its address. *)
Definition allocate (k : Keyframe.t) (this : t) : nat * t :=
  (length (store this),
   mk (store this ++ [k]) (keyframes this) (selectedKeyframe this)
      (emitted this)).

(** Field [time] of the object at an address. *)
Definition timeOf (st : list Keyframe.t) (a : nat) : Q :=
  Keyframe.time (st !!! a).

(** [this.keyframes.sort((a, b) => a.time - b.time)] *)
Definition sortKeyframes (this : t) : t :=
  setKeyframes
    (arraySort (fun a b => timeOf (store this) a - timeOf (store this) b)
               (keyframes this))
    this.

Definition addKeyframe (keyframe : nat) (this : t) : t :=
  let this := setKeyframes (keyframes this ++ [keyframe]) this in
  let this := sortKeyframes this in
  let this := emit (keyframeAdded keyframe) this in
  emit (keyframesChanged (keyframes this)) this.

(** The result carries the returned boolean. *)
Definition removeKeyframe (keyframe : nat) (this : t) : bool * t :=
  match indexOf keyframe (keyframes this) with
  | Some index =>
      let this := setKeyframes (delete index (keyframes this)) this in
      let this :=
        if decide (selectedKeyframe this = Some keyframe)
        then emit (keyframeSelected None) (setSelected None this)
        else this in
      let this := emit (keyframeRemoved keyframe) this in
      (true, emit (keyframesChanged (keyframes this)) this)
  | None => (false, this)
  end.

Definition updateKeyframe (keyframe : nat) (newData : Keyframe.patch)
    (this : t) : t :=
  let this :=
    mk (alter (Keyframe.assign newData) keyframe (store this))
       (keyframes this) (selectedKeyframe this) (emitted this) in
  let this := sortKeyframes this in
  let this := emit (keyframeUpdated keyframe) this in
  emit (keyframesChanged (keyframes this)) this.

Definition selectKeyframe (keyframe : option nat) (this : t) : t :=
  emit (keyframeSelected keyframe) (setSelected keyframe this).

(** The loop of [getSurroundingKeyframes]; [before] is the value of the
    variable on entry.  [after] is still [null] whenever the second test
    is reached, because the loop is left as soon as it is assigned. *)
Fixpoint surrounding (st : list Keyframe.t) (time : Q) (kfs : list nat)
    (before : option nat) : option nat * option nat :=
  match kfs with
  | [] => (before, None)
  | k :: rest =>
      let before :=
        if Qlt_le_dec time (timeOf st k) then before else Some k in
      if Qlt_le_dec (timeOf st k) time
      then surrounding st time rest before
      else (before, Some k)
  end.

Definition getSurroundingKeyframes (time : Q) (this : t)
    : option nat * option nat :=
  surrounding (store this) time (keyframes this) None.

(** The pose returned when there is no keyframe. *)
Definition defaultPose : CameraData.t :=
  CameraData.mk 35.6762 139.6503 10000 0 (-(45)) 0 (Some 60).

(** [interpolateAt] returns either the plain object of a keyframe
    ([toJSON]) or an object literal with the seven camera fields, whose
    numbers are computed; there is no result when one of them is not a
    finite number or a call does not return. *)
Definition interpolateAt {engine : Engine} (time : Q) (this : t)
    : option (KeyframeJSON.t + CameraData.t) :=
  match getSurroundingKeyframes time this with
  | (None, None) => Some (inr defaultPose)
  | (None, Some after) => Some (inl (Keyframe.toJSON (store this !!! after)))
  | (Some before, None) =>
      Some (inl (Keyframe.toJSON (store this !!! before)))
  | (Some b, Some a) =>
      let before := store this !!! b in
      let after := store this !!! a in
      if Nat.eqb b a then Some (inl (Keyframe.toJSON before))
      else
        let duration :=
          Some (Keyframe.time after) ⊖ Some (Keyframe.time before) in
        let elapsed := Some time ⊖ Some (Keyframe.time before) in
        positive ← Double.lt (Double.double 0) duration;
        let t :=
          if positive : bool then elapsed ⊘ duration
          else Double.double 0 in
        let interpType := Keyframe.interpolationType before in
        latitude ←
          Interpolation.interpolate (Some (Keyframe.latitude before))
            (Some (Keyframe.latitude after)) t interpType;
        longitude ←
          Interpolation.interpolate (Some (Keyframe.longitude before))
            (Some (Keyframe.longitude after)) t interpType;
        height ←
          Interpolation.interpolate (Some (Keyframe.height before))
            (Some (Keyframe.height after)) t interpType;
        heading ←
          Interpolation.interpolateAngle (Some (Keyframe.heading before))
            (Some (Keyframe.heading after)) t interpType;
        pitch ←
          Interpolation.interpolateAngle (Some (Keyframe.pitch before))
            (Some (Keyframe.pitch after)) t interpType;
        roll ←
          Interpolation.interpolateAngle (Some (Keyframe.roll before))
            (Some (Keyframe.roll after)) t interpType;
        fov ←
          Interpolation.interpolate (Some (Keyframe.fov before))
            (Some (Keyframe.fov after)) t interpType;
        Some (inr {| CameraData.latitude := latitude;
                     CameraData.longitude := longitude;
                     CameraData.height := height;
                     CameraData.heading := heading;
                     CameraData.pitch := pitch;
                     CameraData.roll := roll;
                     CameraData.fov := Some fov |})
  end.

Definition getAllKeyframes (this : t) : list nat := keyframes this.

Definition clear (this : t) : t :=
  let this := setSelected None (setKeyframes [] this) in
  emit (keyframesChanged (keyframes this)) this.

(** The object built by [exportToJSON]. *)
Record document := mkDocument {
  version : string;
  documentKeyframes : option (list KeyframeJSON.t)
}.

Definition exportToJSON (this : t) : document :=
  {| version := "1.0";
     documentKeyframes :=
       Some (map (fun kf => Keyframe.toJSON (store this !!! kf))
                 (keyframes this)) |}.

(** [importFromJSON]: every keyframe of the document becomes a fresh
    object, which is then added. *)
Definition importOne (this : t) (kfData : KeyframeJSON.t) : t :=
  let '(kf, this) := allocate (Keyframe.fromJSON kfData) this in
  addKeyframe kf this.

Definition importFromJSON (data : document) (this : t) : t :=
  let this := clear this in
  match documentKeyframes data with
  | Some kfs => foldl importOne this kfs
  | None => this
  end.

(** The field values of the stored keyframes, in array order. *)
Definition contents (this : t) : list Keyframe.t :=
  map (fun kf => store this !!! kf) (keyframes this).

(** The array is in ascending order of [time]. *)
Definition sorted (this : t) : Prop :=
  Sorted (fun a b => timeOf (store this) a <= timeOf (store this) b)
         (keyframes this).

(** Every address held in the array names an object of the store. *)
Definition wellFormed (this : t) : Prop :=
  Forall (fun a => (a < length (store this))%nat) (keyframes this).

(** The states a manager goes through: it starts empty, objects are
    created by [new Keyframe(...)], and the array is changed by the
    methods of the manager only. *)
Inductive reachable : t -> Prop :=
| reachable_empty : reachable empty
| reachable_new k this :
    reachable this -> reachable (snd (allocate k this))
| reachable_add kf this :
    reachable this -> (kf < length (store this))%nat ->
    reachable (addKeyframe kf this)
| reachable_remove kf this :
    reachable this -> reachable (snd (removeKeyframe kf this))
| reachable_update kf newData this :
    reachable this -> (kf < length (store this))%nat ->
    reachable (updateKeyframe kf newData this)
| reachable_select kf this :
    reachable this -> reachable (selectKeyframe kf this)
| reachable_clear this :
    reachable this -> reachable (clear this)
| reachable_import data this :
    reachable this -> reachable (importFromJSON data this).

End KeyframeManager.

(** ** Sample data

    The four keyframes that [App.addDemoKeyframes] installs, and small
    states built from them through the methods above. *)

Module Demo.
Import KeyframeManager.

Definition kf1 : Keyframe.t :=
  Keyframe.new 0 (CameraData.mk 35.6586 139.7454 500 0 (-(45)) 0 (Some 60))
               (Some "easeInOut"%string).
Definition kf2 : Keyframe.t :=
  Keyframe.new 3 (CameraData.mk 35.6586 139.7454 5000 45 (-(60)) 0 (Some 50))
               (Some "easeInOut"%string).
Definition kf3 : Keyframe.t :=
  Keyframe.new 6 (CameraData.mk 35.6595 139.7004 800 90 (-(30)) 0 (Some 70))
               (Some "easeInOut"%string).
Definition kf4 : Keyframe.t :=
  Keyframe.new 10
               (CameraData.mk 35.6762 139.6503 10000 180 (-(75)) 0 (Some 45))
               (Some "easeInOut"%string).

(** [addKeyframe(new Keyframe(...))] *)
Definition addNew (k : Keyframe.t) (this : t) : t :=
  let '(kf, this) := allocate k this in addKeyframe kf this.

(** The timeline after [addDemoKeyframes]. *)
Definition timeline : t := addNew kf4 (addNew kf3 (addNew kf2 (addNew kf1 empty))).

(** The demo timeline after the keyframe at address 1 was dragged to
    [time = 8] and the keyframe at address 0 was removed. *)
Definition patchTime (time : Q) : Keyframe.patch :=
  Keyframe.mkPatch (Some time) None None None None None None None None.
Definition edited : t :=
  snd (removeKeyframe 0 (updateKeyframe 1 (patchTime 8) timeline)).

(** A timeline with one keyframe, at [time = 5]. *)
Definition single : t :=
  addNew (Keyframe.new 5 (CameraData.mk 35.6586 139.7454 500 0 (-(45)) 0 None)
                       None) empty.

(** A timeline whose only keyframe had its field of view set to 0 by
    [updateKeyframe(keyframe, { fov: 0 })]. *)
Definition patchFov (fov : Q) : Keyframe.patch :=
  Keyframe.mkPatch None None None None None None None (Some fov) None.
Definition zeroFov : t := updateKeyframe 0 (patchFov 0) (addNew kf1 empty).

(** Two keyframes at the same time, [time = 2], with heights 100 and
    200, added in this order. *)
Definition dup : t :=
  addNew (Keyframe.new 2 (CameraData.mk 35.6586 139.7454 200 0 (-(45)) 0
                                        (Some 60)) None)
    (addNew (Keyframe.new 2 (CameraData.mk 35.6586 139.7454 100 0 (-(45)) 0
                                           (Some 60)) None) empty).

(** An engine whose [Math.pow] returns the double nearest to the exact
    cube; the sources raise to the power 3 only. *)
Definition engine : Engine :=
  {| mathPow x y :=
       if Qeq_bool y 3 then Double.fl (x * x * x) else None |}.

End Demo.

(** * Properties *)

(** ** Binary64 arithmetic *)

Section DoubleFacts.
Import Double.

Lemma two_neq_0 : ~ 2 == 0.
Proof. discriminate. Qed.

Lemma pow2_pos (k : Z) : 0 < pow2 k.
Proof. apply Qpower_0_lt. reflexivity. Qed.

Lemma pow2_add (a b : Z) : pow2 (a + b) == pow2 a * pow2 b.
Proof. apply Qpower_plus, two_neq_0. Qed.

Lemma pow2_sub (a b : Z) : pow2 (a - b) == pow2 a / pow2 b.
Proof. apply Qpower_minus, two_neq_0. Qed.

Lemma pow2_le (a b : Z) : (a <= b)%Z -> pow2 a <= pow2 b.
Proof. intros H. apply Qpower_le_compat_l; [exact H | discriminate]. Qed.

Lemma pow2_lt (a b : Z) : (a < b)%Z -> pow2 a < pow2 b.
Proof. intros H. apply Qpower_lt_compat_l; [exact H | reflexivity]. Qed.

Lemma pow2_Z (k : Z) : (0 <= k)%Z -> pow2 k == inject_Z (2 ^ k).
Proof. intros H. unfold pow2. now rewrite (Zpower_Qpower 2 k H). Qed.

(** A number [x * 2^j] with [j >= 0] is an integer. *)
Lemma shift_Z (m j : Z) :
  (0 <= j)%Z -> inject_Z m * pow2 j == inject_Z (m * 2 ^ j).
Proof. intros H. rewrite (pow2_Z j H), inject_Z_mult. reflexivity. Qed.

Lemma ilog2_spec (q : Q) :
  0 < q -> pow2 (ilog2 q) <= q /\ q < pow2 (ilog2 q + 1).
Proof.
  intros Hq. destruct q as [n d]. unfold ilog2. cbn [Qnum Qden].
  assert (Hn : (0 < n)%Z).
  { unfold Qlt in Hq. cbn in Hq. lia. }
  destruct (Z.log2_spec n Hn) as [Hn1 Hn2].
  destruct (Z.log2_spec (Z.pos d) (Pos2Z.is_pos d)) as [Hd1 Hd2].
  pose proof (Z.log2_nonneg n) as Ha.
  pose proof (Z.log2_nonneg (Z.pos d)) as Hb.
  set (a := Z.log2 n) in *. set (b := Z.log2 (Z.pos d)) in *.
  assert (Hval : n # d == inject_Z n / inject_Z (Z.pos d))
    by apply Qmake_Qdiv.
  assert (Hdpos : 0 < inject_Z (Z.pos d)) by reflexivity.
  assert (Hlo : pow2 (a - b - 1) < n # d).
  { rewrite Hval. apply Qlt_shift_div_l; [exact Hdpos |].
    apply Qlt_le_trans with (pow2 (a - b - 1) * pow2 (b + 1)).
    - apply Qmult_lt_l; [apply pow2_pos |].
      rewrite (pow2_Z (b + 1)) by lia. rewrite <- Zlt_Qlt.
      now rewrite <- Z.add_1_r in Hd2.
    - rewrite <- pow2_add. replace (a - b - 1 + (b + 1))%Z with a by lia.
      rewrite (pow2_Z a) by lia. now rewrite <- Zle_Qle. }
  assert (Hhi : n # d < pow2 (a - b + 1)).
  { rewrite Hval. apply Qlt_shift_div_r; [exact Hdpos |].
    apply Qlt_le_trans with (pow2 (a - b + 1) * pow2 b).
    - rewrite <- pow2_add. replace (a - b + 1 + b)%Z with (a + 1)%Z by lia.
      rewrite (pow2_Z (a + 1)) by lia. rewrite <- Zlt_Qlt.
      now rewrite <- Z.add_1_r in Hn2.
    - apply Qmult_le_l; [apply pow2_pos |].
      rewrite (pow2_Z b) by lia. now rewrite <- Zle_Qle. }
  destruct (Qle_bool (pow2 (a - b)) (n # d)) eqn:Hc.
  - apply Qle_bool_iff in Hc. split; [exact Hc | exact Hhi].
  - assert (Hlt : n # d < pow2 (a - b)).
    { apply Qnot_le_lt. intros H. apply Qle_bool_iff in H. congruence. }
    split; [apply Qlt_le_weak; exact Hlo |].
    now replace (a - b - 1 + 1)%Z with (a - b)%Z by lia.
Qed.

(** The exponent is determined by the two bounds. *)
Lemma ilog2_unique (q : Q) (k : Z) :
  pow2 k <= q -> q < pow2 (k + 1) -> ilog2 q = k.
Proof.
  intros Hlo Hhi.
  assert (Hq : 0 < q) by (eapply Qlt_le_trans; [apply pow2_pos | exact Hlo]).
  destruct (ilog2_spec q Hq) as [Hlo' Hhi'].
  assert (H1 : (k < ilog2 q + 1)%Z).
  { apply (Qpower_lt_compat_l_inv 2); [| reflexivity].
    eapply Qle_lt_trans; [exact Hlo | exact Hhi']. }
  assert (H2 : (ilog2 q < k + 1)%Z).
  { apply (Qpower_lt_compat_l_inv 2); [| reflexivity].
    eapply Qle_lt_trans; [exact Hlo' | exact Hhi]. }
  lia.
Qed.


(** *** Rounding to the nearest integer *)

Lemma nearestEven_Z (z : Z) : nearestEven (inject_Z z) = z.
Proof.
  unfold nearestEven. rewrite Qfloor_Z.
  assert (H : inject_Z z - inject_Z z < 1 # 2) by lra.
  rewrite Qlt_alt in H. now rewrite H.
Qed.

Lemma nearestEven_cases (x : Q) :
  let f := Qfloor x in
  (nearestEven x = f /\ x - inject_Z f <= 1 # 2)
  \/ (nearestEven x = (f + 1)%Z /\ 1 # 2 <= x - inject_Z f).
Proof.
  intros f. unfold nearestEven. fold f.
  destruct (Qcompare_spec (x - inject_Z f) (1 # 2)) as [H | H | H].
  - destruct (Z.even f); [left | right]; split; try reflexivity; lra.
  - left. split; [reflexivity | lra].
  - right. split; [reflexivity | lra].
Qed.

Lemma nearestEven_mono (x y : Q) :
  x <= y -> (nearestEven x <= nearestEven y)%Z.
Proof.
  intros Hxy.
  pose proof (Qfloor_resp_le x y Hxy) as Hf.
  pose proof (Qfloor_le y) as Hy1. pose proof (Qlt_floor y) as Hy2.
  pose proof (Qfloor_le x) as Hx1. pose proof (Qlt_floor x) as Hx2.
  destruct (Z.eq_dec (Qfloor x) (Qfloor y)) as [Heq | Hne].
  - unfold nearestEven. rewrite <- Heq.
    destruct (Qcompare_spec (x - inject_Z (Qfloor x)) (1 # 2)) as [H | H | H];
      destruct (Qcompare_spec (y - inject_Z (Qfloor x)) (1 # 2))
        as [H' | H' | H'];
      try lia; try lra; destruct (Z.even (Qfloor x)); lia.
  - destruct (nearestEven_cases x) as [[-> _] | [-> _]];
      destruct (nearestEven_cases y) as [[-> _] | [-> _]]; lia.
Qed.

Lemma nearestEven_le (x : Q) (z : Z) :
  x <= inject_Z z -> (nearestEven x <= z)%Z.
Proof.
  intros H. rewrite <- (nearestEven_Z z). now apply nearestEven_mono.
Qed.

Lemma nearestEven_ge (x : Q) (z : Z) :
  inject_Z z <= x -> (z <= nearestEven x)%Z.
Proof.
  intros H. rewrite <- (nearestEven_Z z). now apply nearestEven_mono.
Qed.

(** *** Rounding to binary64 *)

Lemma ilog2_proper (a b : Q) : 0 < a -> a == b -> ilog2 a = ilog2 b.
Proof.
  intros Ha Hab. destruct (ilog2_spec a Ha) as [Hlo Hhi].
  symmetry. apply ilog2_unique; now rewrite <- Hab.
Qed.

Lemma exponent_proper (a b : Q) :
  ~ a == 0 -> a == b -> exponent a = exponent b.
Proof.
  intros Ha Hab. unfold exponent. f_equal. f_equal.
  apply ilog2_proper; [| now rewrite Hab].
  apply Qabs_case; intros H; lra.
Qed.

Lemma round_proper (a b : Q) : a == b -> round a = round b.
Proof. intros H. unfold round. now rewrite (Qred_complete a b H). Qed.

Lemma round_0 (q : Q) : q == 0 -> round q = 0.
Proof. intros H. now rewrite (round_proper q 0 H). Qed.

Lemma round_spec (q : Q) :
  ~ q == 0 ->
  round q
  == inject_Z (nearestEven (q / pow2 (exponent q))) * pow2 (exponent q).
Proof.
  intros Hq. unfold round. cbv zeta.
  destruct (Qeq_bool (Qred q) 0) eqn:Hz.
  - apply Qeq_bool_eq in Hz. rewrite Qred_correct in Hz. contradiction.
  - rewrite Qred_correct.
    rewrite (exponent_proper (Qred q) q);
      [| now rewrite Qred_correct | apply Qred_correct].
    assert (Harg : Qred q / pow2 (exponent q) == q / pow2 (exponent q))
      by now rewrite Qred_correct.
    unfold nearestEven.
    rewrite (Qfloor_comp _ _ Harg).
    now rewrite (Qcompare_comp _ _ (Qminus_comp _ _ Harg _ _ (Qeq_refl _))
                   _ _ (Qeq_refl (1 # 2))).
Qed.


Lemma nearestEven_proper (a b : Q) : a == b -> nearestEven a = nearestEven b.
Proof.
  intros H. unfold nearestEven. rewrite (Qfloor_comp _ _ H).
  now rewrite (Qcompare_comp _ _ (Qminus_comp _ _ H _ _ (Qeq_refl _))
                 _ _ (Qeq_refl (1 # 2))).
Qed.

Lemma Qabs_nonzero (q : Q) : ~ q == 0 -> 0 < Qabs q.
Proof. intros H. apply Qabs_case; intros H'; lra. Qed.

Lemma Qabs_scaled (m e : Z) :
  Qabs (inject_Z m * pow2 e) == inject_Z (Z.abs m) * pow2 e.
Proof.
  rewrite Qabs_Qmult, (Qabs_pos (pow2 e)) by apply Qlt_le_weak, pow2_pos.
  apply Qmult_comp; [| reflexivity].
  unfold Qabs, inject_Z. reflexivity.
Qed.

(** The bounds of the binade of a non-zero number. *)
Lemma binade (q : Q) :
  ~ q == 0 ->
  pow2 (ilog2 (Qabs q)) <= Qabs q /\ Qabs q < pow2 (ilog2 (Qabs q) + 1).
Proof. intros H. apply ilog2_spec, Qabs_nonzero, H. Qed.

Lemma exponent_le (q : Q) (m e : Z) :
  ~ q == 0 -> q == inject_Z m * pow2 e ->
  (Z.abs m < 2 ^ 53)%Z -> (-1074 <= e)%Z -> (exponent q <= e)%Z.
Proof.
  intros Hq Hv Hm He. destruct (binade q Hq) as [Hlo _].
  assert (Habs : Qabs q < pow2 (53 + e)).
  { rewrite Hv, Qabs_scaled, pow2_add.
    apply Qmult_lt_r; [apply pow2_pos |].
    rewrite (pow2_Z 53) by lia. now rewrite <- Zlt_Qlt. }
  assert (Hl : (ilog2 (Qabs q) < 53 + e)%Z).
  { apply (Qpower_lt_compat_l_inv 2); [| reflexivity].
    eapply Qle_lt_trans; [exact Hlo | exact Habs]. }
  unfold exponent. lia.
Qed.

Lemma on_grid (m e E : Z) :
  (E <= e)%Z ->
  inject_Z m * pow2 e == inject_Z (m * 2 ^ (e - E)) * pow2 E.
Proof.
  intros H. rewrite <- shift_Z by lia. rewrite <- Qmult_assoc, <- pow2_add.
  now replace (e - E + E)%Z with e by lia.
Qed.

Lemma grid_ratio (z E : Z) : inject_Z z * pow2 E / pow2 E == inject_Z z.
Proof. field. pose proof (pow2_pos E). lra. Qed.

(** Rounding does not cross a point of the grid it rounds to. *)
Lemma round_le_grid (q : Q) (z : Z) :
  ~ q == 0 ->
  q <= inject_Z z * pow2 (exponent q) ->
  round q <= inject_Z z * pow2 (exponent q).
Proof.
  intros Hq Hle. rewrite (round_spec q Hq).
  apply Qmult_le_r; [apply pow2_pos |]. rewrite <- Zle_Qle.
  apply nearestEven_le. apply Qle_shift_div_r; [apply pow2_pos | exact Hle].
Qed.

Lemma round_ge_grid (q : Q) (z : Z) :
  ~ q == 0 ->
  inject_Z z * pow2 (exponent q) <= q ->
  inject_Z z * pow2 (exponent q) <= round q.
Proof.
  intros Hq Hle. rewrite (round_spec q Hq).
  apply Qmult_le_r; [apply pow2_pos |]. rewrite <- Zle_Qle.
  apply nearestEven_ge. apply Qle_shift_div_l; [apply pow2_pos | exact Hle].
Qed.

Lemma round_representable (q : Q) : representable q -> round q == q.
Proof.
  intros (m & e & Hm & He & Hv).
  destruct (Qeq_dec q 0) as [Hz | Hnz]; [now rewrite (round_0 q Hz) |].
  pose proof (exponent_le q m e Hnz Hv Hm He) as HE.
  rewrite (round_spec q Hnz).
  assert (Hr : q / pow2 (exponent q)
               == inject_Z (m * 2 ^ (e - exponent q))).
  { rewrite Hv at 1. rewrite (on_grid m e (exponent q) HE).
    apply grid_ratio. }
  rewrite (nearestEven_proper _ _ Hr), nearestEven_Z.
  rewrite <- (on_grid m e (exponent q) HE). now symmetry.
Qed.

(** A representable number below the binade of [q]. *)
Lemma below_binade (q r : Q) (m e : Z) :
  ~ q == 0 -> r == inject_Z m * pow2 e ->
  (Z.abs m < 2 ^ 53)%Z -> (-1074 <= e < exponent q)%Z ->
  Qabs r < pow2 (ilog2 (Qabs q))
  /\ pow2 (ilog2 (Qabs q)) == inject_Z (2 ^ 52) * pow2 (exponent q).
Proof.
  intros Hq Hv Hm He.
  assert (HE : exponent q = (ilog2 (Qabs q) - 52)%Z)
    by (unfold exponent in *; lia).
  split.
  - rewrite Hv, Qabs_scaled.
    apply Qlt_le_trans with (pow2 53 * pow2 e).
    + apply Qmult_lt_r; [apply pow2_pos |].
      rewrite (pow2_Z 53) by lia. now rewrite <- Zlt_Qlt.
    + rewrite <- pow2_add. apply pow2_le. lia.
  - rewrite <- (pow2_Z 52) by lia. rewrite <- pow2_add. rewrite HE.
    now replace (52 + (ilog2 (Qabs q) - 52))%Z with (ilog2 (Qabs q)) by lia.
Qed.

Lemma round_le (q r : Q) : q <= r -> representable r -> round q <= r.
Proof.
  intros Hle (m & e & Hm & He & Hv).
  destruct (Qeq_dec q 0) as [Hz | Hnz].
  { rewrite (round_0 q Hz). lra. }
  destruct (Z_le_gt_dec (exponent q) e) as [HE | HE].
  - rewrite Hv, (on_grid m e (exponent q) HE) in Hle |- *.
    now apply round_le_grid.
  - destruct (below_binade q r m e Hnz Hv Hm ltac:(lia)) as [Hr Hgrid].
    destruct (binade q Hnz) as [Hlo _].
    assert (Hneg : q <= - pow2 (ilog2 (Qabs q))).
    { revert Hr Hlo. apply Qabs_case; apply Qabs_case; intros; lra. }
    assert (Hb : round q <= inject_Z (- 2 ^ 52) * pow2 (exponent q)).
    { apply round_le_grid; [exact Hnz |].
      rewrite inject_Z_opp. lra. }
    rewrite inject_Z_opp in Hb.
    revert Hr. apply Qabs_case; intros; lra.
Qed.

Lemma round_ge (q r : Q) : r <= q -> representable r -> r <= round q.
Proof.
  intros Hle (m & e & Hm & He & Hv).
  destruct (Qeq_dec q 0) as [Hz | Hnz].
  { rewrite (round_0 q Hz). lra. }
  destruct (Z_le_gt_dec (exponent q) e) as [HE | HE].
  - rewrite Hv, (on_grid m e (exponent q) HE) in Hle |- *.
    now apply round_ge_grid.
  - destruct (below_binade q r m e Hnz Hv Hm ltac:(lia)) as [Hr Hgrid].
    destruct (binade q Hnz) as [Hlo _].
    assert (Hpos : pow2 (ilog2 (Qabs q)) <= q).
    { revert Hr Hlo. apply Qabs_case; apply Qabs_case; intros; lra. }
    assert (Hb : inject_Z (2 ^ 52) * pow2 (exponent q) <= round q).
    { apply round_ge_grid; [exact Hnz | lra]. }
    revert Hr. apply Qabs_case; intros; lra.
Qed.

Lemma representable_0 : representable 0.
Proof. exists 0%Z, 0%Z. split; [reflexivity |]. split; [lia | reflexivity]. Qed.

Lemma representable_Z (z : Z) :
  (Z.abs z < 2 ^ 53)%Z -> representable (inject_Z z).
Proof.
  intros H. exists z, 0%Z. split; [exact H |]. split; [lia |].
  unfold pow2. cbn. ring.
Qed.

Lemma representable_proper (a b : Q) :
  a == b -> representable a -> representable b.
Proof.
  intros Hab (m & e & Hm & He & Hv). exists m, e.
  split; [exact Hm |]. split; [exact He |]. now rewrite <- Hab.
Qed.

Lemma round_is_representable (q : Q) : representable (round q).
Proof.
  destruct (Qeq_dec q 0) as [Hz | Hnz].
  { rewrite (round_0 q Hz). apply representable_0. }
  destruct (binade q Hnz) as [_ Hhi].
  set (E := exponent q).
  assert (HE : (ilog2 (Qabs q) + 1 <= 53 + E)%Z)
    by (unfold E, exponent; lia).
  assert (Hbound : Qabs q <= inject_Z (2 ^ 53) * pow2 E).
  { rewrite <- (pow2_Z 53), <- pow2_add by lia.
    apply Qlt_le_weak. eapply Qlt_le_trans; [exact Hhi |].
    now apply pow2_le. }
  assert (Hn : (- 2 ^ 53 <= nearestEven (q / pow2 E) <= 2 ^ 53)%Z).
  { split.
    - apply nearestEven_ge. apply Qle_shift_div_l; [apply pow2_pos |].
      rewrite inject_Z_opp. revert Hbound. apply Qabs_case; intros; lra.
    - apply nearestEven_le. apply Qle_shift_div_r; [apply pow2_pos |].
      revert Hbound. apply Qabs_case; intros; lra. }
  apply (representable_proper _ _ (Qeq_sym _ _ (round_spec q Hnz))).
  fold E. set (n := nearestEven (q / pow2 E)) in *.
  assert (HEmin : (-1074 <= E)%Z) by (unfold E, exponent; lia).
  destruct (Z.eq_dec (Z.abs n) (2 ^ 53)%Z) as [Htop | Hin].
  - exists (n / 2)%Z, (E + 1)%Z. split; [| split; [lia |]].
    + assert (n = (2 ^ 53)%Z \/ n = (- 2 ^ 53)%Z) as [-> | ->] by lia;
        reflexivity.
    + assert (Hhalf : inject_Z n == inject_Z (n / 2) * 2).
      { assert (n = (2 ^ 53)%Z \/ n = (- 2 ^ 53)%Z) as [-> | ->] by lia;
          reflexivity. }
      rewrite pow2_add. change (pow2 1) with 2. rewrite Hhalf. ring.
  - exists n, E. split; [lia |]. split; [exact HEmin | reflexivity].
Qed.

Lemma round_idempotent (q : Q) : round (round q) == round q.
Proof. apply round_representable, round_is_representable. Qed.


(** *** Rounded results *)

Lemma fl_proper (a b : Q) : a == b -> fl a = fl b.
Proof. intros H. unfold fl. now rewrite (round_proper a b H). Qed.

Lemma fl_Some (q r : Q) :
  fl q = Some r ->
  r = round q /\ Qabs r <= maxValue /\ representable r.
Proof.
  unfold fl. cbv zeta.
  destruct (Qle_bool (Qabs (round q)) maxValue) eqn:Hc; [| discriminate].
  intros [= <-]. apply Qle_bool_iff in Hc.
  split; [reflexivity |]. split; [exact Hc | apply round_is_representable].
Qed.

Lemma fl_round (q : Q) : Qabs (round q) <= maxValue -> fl q = Some (round q).
Proof.
  intros H. unfold fl. cbv zeta.
  apply Qle_bool_iff in H. now rewrite H.
Qed.

Lemma fl_exact (q : Q) :
  representable q -> Qabs q <= maxValue -> returns (fl q) q.
Proof.
  intros Hr Hb. pose proof (round_representable q Hr) as He.
  exists (round q). split; [| exact He].
  apply fl_round. now rewrite He.
Qed.

Lemma maxValue_representable : representable maxValue.
Proof.
  exists (2 ^ 53 - 1)%Z, 971%Z.
  split; [reflexivity |]. split; [lia | reflexivity].
Qed.

Lemma representable_opp (q : Q) : representable q -> representable (- q).
Proof.
  intros (m & e & Hm & He & Hv). exists (- m)%Z, e.
  split; [lia |]. split; [exact He |].
  rewrite Hv, inject_Z_opp. ring.
Qed.

(** Rounding stays between representable bounds. *)
Lemma fl_between (q lo hi : Q) :
  lo <= q <= hi -> representable lo -> representable hi ->
  - maxValue <= lo -> hi <= maxValue ->
  exists r, fl q = Some r /\ r = round q /\ lo <= r <= hi.
Proof.
  intros [Hlo Hhi] Rlo Rhi Blo Bhi.
  pose proof (round_ge q lo Hlo Rlo) as H1.
  pose proof (round_le q hi Hhi Rhi) as H2.
  exists (round q). split; [| split; [reflexivity | split; assumption]].
  apply fl_round. apply Qabs_Qle_condition. split; lra.
Qed.

Lemma fl_bounded (q : Q) :
  Qabs q <= maxValue -> exists r, fl q = Some r /\ r = round q.
Proof.
  intros H. apply Qabs_Qle_condition in H.
  destruct (fl_between q (- maxValue) maxValue H) as (r & Hr & Hv & _).
  - apply representable_opp, maxValue_representable.
  - apply maxValue_representable.
  - lra.
  - lra.
  - now exists r.
Qed.

Lemma isDouble_true (q : Q) :
  isDouble q = true ->
  representable q /\ Qabs q <= maxValue /\ returns (fl q) q.
Proof.
  unfold isDouble. destruct (fl q) as [r |] eqn:Hfl; [| discriminate].
  intros Heq. apply Qeq_bool_eq in Heq.
  destruct (fl_Some q r Hfl) as (_ & Hb & Hr).
  split; [exact (representable_proper r q Heq Hr) |].
  split; [now rewrite <- Heq |]. now exists r.
Qed.

Lemma returns_proper (x : option Q) (a b : Q) :
  a == b -> returns x a -> returns x b.
Proof. intros Hab (r & Hx & Hr). exists r. split; [exact Hx | lra]. Qed.

End DoubleFacts.

(** ** Interpolation library *)

Section OperationFacts.
Import Double.

Lemma add_Some (a b : Q) : Some a ⊕ Some b = fl (a + b).
Proof. reflexivity. Qed.

Lemma sub_Some (a b : Q) : Some a ⊖ Some b = fl (a - b).
Proof. reflexivity. Qed.

Lemma mul_Some (a b : Q) : Some a ⊗ Some b = fl (a * b).
Proof. reflexivity. Qed.

Lemma lt_Some (a b : Q) :
  lt (Some a) (Some b) = Some (if Qlt_le_dec a b then true else false).
Proof. reflexivity. Qed.

Lemma double_180 : double 180 = Some 180.
Proof. reflexivity. Qed.

Lemma double_360 : double 360 = Some 360.
Proof. reflexivity. Qed.

Lemma double_minus_180 : double (-180) = Some (-(180)).
Proof. reflexivity. Qed.

Lemma representable_int (z : Z) (q : Q) :
  q == inject_Z z -> (Z.abs z < 2 ^ 53)%Z -> representable q.
Proof.
  intros Hq Hz. apply (representable_proper (inject_Z z)); [now symmetry |].
  now apply representable_Z.
Qed.

Lemma small_maxValue (q : Q) : q <= inject_Z (2 ^ 60) -> q <= maxValue.
Proof.
  intros H. eapply Qle_trans; [exact H |].
  unfold maxValue. rewrite (pow2_Z 971) by lia.
  rewrite <- inject_Z_mult, <- Zle_Qle.
  assert (2 ^ 60 <= 2 ^ 971)%Z by (apply Z.pow_le_mono_r; lia).
  nia.
Qed.

(** A double of magnitude at most [2^53] is a multiple of [2^e] for some
    [e <= 3], and so is 360. *)
Lemma grid_below_8 (a : Q) :
  representable a -> Qabs a <= inject_Z (2 ^ 53) ->
  exists m e : Z,
    (Z.abs m < 2 ^ 53)%Z /\ (-1074 <= e <= 3)%Z
    /\ a == inject_Z m * pow2 e
    /\ 360 == inject_Z (45 * 2 ^ (3 - e)) * pow2 e.
Proof.
  intros (m & e & Hm & He & Hv) Hb.
  assert (H360 : forall e', (e' <= 3)%Z ->
            360 == inject_Z (45 * 2 ^ (3 - e')) * pow2 e').
  { intros e' He'. rewrite <- (on_grid 45 3 e' He'). reflexivity. }
  destruct (Z_le_gt_dec e 3) as [Hle | Hgt].
  - exists m, e. split; [exact Hm |]. split; [lia |].
    split; [exact Hv | now apply H360].
  - assert (Hg : a == inject_Z (m * 2 ^ (e - 3)) * pow2 3).
    { rewrite Hv. apply on_grid. lia. }
    exists (m * 2 ^ (e - 3))%Z, 3%Z. split; [| split; [lia |]].
    + rewrite Hg, Qabs_scaled in Hb. rewrite (pow2_Z 3) in Hb by lia.
      rewrite <- inject_Z_mult, <- Zle_Qle in Hb.
      change (2 ^ 3)%Z with 8%Z in Hb. change (2 ^ 53)%Z with
        9007199254740992%Z in *. lia.
    + split; [exact Hg | now apply H360].
Qed.

(** Taking a whole turn off a double between 180 and [2^53] is exact. *)
Lemma turn_down_exact (a : Q) :
  representable a -> 180 < a -> a <= inject_Z (2 ^ 53) ->
  representable (a - 360).
Proof.
  intros Hr Hlo Hhi.
  destruct (grid_below_8 a Hr) as (m & e & Hm & He & Hv & H360).
  { rewrite Qabs_pos; lra. }
  assert (Heq : a - 360 == inject_Z (m - 45 * 2 ^ (3 - e)) * pow2 e).
  { rewrite Hv at 1. rewrite H360 at 1.
    unfold Z.sub. rewrite inject_Z_plus, inject_Z_opp. ring. }
  exists (m - 45 * 2 ^ (3 - e))%Z, e.
  split; [| split; [lia | exact Heq]].
  assert (Hdiff : Qabs (a - 360) < a) by (apply Qabs_case; intros; lra).
  rewrite Hv in Hdiff at 2. rewrite Heq, Qabs_scaled in Hdiff.
  apply Qmult_lt_r in Hdiff; [| apply pow2_pos].
  rewrite <- Zlt_Qlt in Hdiff. lia.
Qed.

(** Adding a whole turn to a double between [-2^53] and -180 is exact. *)
Lemma turn_up_exact (a : Q) :
  representable a -> a < -(180) -> - inject_Z (2 ^ 53) <= a ->
  representable (a + 360).
Proof.
  intros Hr Hlo Hhi.
  apply (representable_proper (- (- a - 360))); [ring |].
  apply representable_opp, turn_down_exact;
    [now apply representable_opp | lra | lra].
Qed.

End OperationFacts.

Section AngleFacts.
Import Double Interpolation.

Lemma small_bounded (q : Q) :
  Qabs q <= inject_Z (2 ^ 60) -> Qabs q <= maxValue.
Proof. apply small_maxValue. Qed.

Lemma whileAbove_returns (n : nat) : forall a : Q,
  representable a -> a <= inject_Z (2 ^ 53) ->
  a - 180 <= 360 * inject_Z (Z.of_nat n) ->
  exists s,
    whileAbove (S n) (Some a) = Some s
    /\ s <= 180
    /\ (a <= 180 -> s = a)
    /\ (180 < a -> -(180) < s)
    /\ representable s
    /\ exists k : Z, s == a - 360 * inject_Z k.
Proof.
  induction n as [| n IH]; intros a Hr Hhi Hn;
    cbn [whileAbove]; rewrite double_180, lt_Some;
    destruct (Qlt_le_dec 180 a) as [Habove | Hnot];
    cbn [mbind option_bind].
  - change (inject_Z (Z.of_nat 0)) with 0 in Hn. lra.
  - exists a. repeat (split; [first [reflexivity | assumption | lra] |]).
    exists 0%Z. change (inject_Z 0) with 0. ring.
  - rewrite double_360, sub_Some.
    pose proof (turn_down_exact a Hr Habove Hhi) as Hr'.
    destruct (fl_exact (a - 360) Hr') as (a' & Hfl & Ha').
    { apply small_bounded. change (inject_Z (2 ^ 53)) with
        9007199254740992 in Hhi. change (inject_Z (2 ^ 60)) with
        1152921504606846976. apply Qabs_case; intros; lra. }
    rewrite Hfl.
    destruct (IH a') as (s & Hs & Hle & Hid & Hlow & Hrs & k & Hk).
    { now apply (representable_proper (a - 360)). }
    { lra. }
    { rewrite Nat2Z.inj_succ, <- Z.add_1_r, inject_Z_plus in Hn.
      change (inject_Z 1) with 1 in Hn. lra. }
    exists s. split; [exact Hs |]. split; [exact Hle |].
    split; [intros; lra |]. split.
    + intros _. destruct (Qlt_le_dec 180 a') as [H | H].
      * now apply Hlow.
      * rewrite (Hid H). lra.
    + split; [exact Hrs |]. exists (k + 1)%Z.
      rewrite inject_Z_plus. change (inject_Z 1) with 1. lra.
  - exists a. repeat (split; [first [reflexivity | assumption | lra] |]).
    exists 0%Z. change (inject_Z 0) with 0. ring.
Qed.

Lemma whileBelow_returns (n : nat) : forall a : Q,
  representable a -> - inject_Z (2 ^ 53) <= a ->
  -(180) - a <= 360 * inject_Z (Z.of_nat n) ->
  exists s,
    whileBelow (S n) (Some a) = Some s
    /\ -(180) <= s
    /\ (-(180) <= a -> s = a)
    /\ (a < -(180) -> s < 180)
    /\ representable s
    /\ exists k : Z, s == a + 360 * inject_Z k.
Proof.
  induction n as [| n IH]; intros a Hr Hlo Hn;
    cbn [whileBelow]; rewrite double_minus_180, lt_Some;
    destruct (Qlt_le_dec a (-(180))) as [Hbelow | Hnot];
    cbn [mbind option_bind].
  - change (inject_Z (Z.of_nat 0)) with 0 in Hn. lra.
  - exists a. repeat (split; [first [reflexivity | assumption | lra] |]).
    exists 0%Z. change (inject_Z 0) with 0. ring.
  - rewrite double_360, add_Some.
    pose proof (turn_up_exact a Hr Hbelow Hlo) as Hr'.
    destruct (fl_exact (a + 360) Hr') as (a' & Hfl & Ha').
    { apply small_bounded. change (inject_Z (2 ^ 53)) with
        9007199254740992 in Hlo. change (inject_Z (2 ^ 60)) with
        1152921504606846976. apply Qabs_case; intros; lra. }
    rewrite Hfl.
    destruct (IH a') as (s & Hs & Hge & Hid & Hup & Hrs & k & Hk).
    { now apply (representable_proper (a + 360)). }
    { lra. }
    { rewrite Nat2Z.inj_succ, <- Z.add_1_r, inject_Z_plus in Hn.
      change (inject_Z 1) with 1 in Hn. lra. }
    exists s. split; [exact Hs |]. split; [exact Hge |].
    split; [intros; lra |]. split.
    + intros _. destruct (Qlt_le_dec a' (-(180))) as [H | H].
      * now apply Hup.
      * rewrite (Hid H). lra.
    + split; [exact Hrs |]. exists (k + 1)%Z.
      rewrite inject_Z_plus. change (inject_Z 1) with 1. lra.
  - exists a. repeat (split; [first [reflexivity | assumption | lra] |]).
    exists 0%Z. change (inject_Z 0) with 0. ring.
Qed.

Lemma Qeq_bool_false (a b : Q) : ~ a == b -> Qeq_bool a b = false.
Proof.
  intros H. destruct (Qeq_bool a b) eqn:E; [| reflexivity].
  now apply Qeq_bool_eq in E.
Qed.

(** Within [2^53] no step of 360 rounds back to where it started. *)
Lemma not_stuck (a : Q) :
  representable a -> Qabs a <= inject_Z (2 ^ 53) -> stuck a = false.
Proof.
  intros Hr Hb. unfold stuck.
  assert (Hhi : a <= inject_Z (2 ^ 53) /\ - inject_Z (2 ^ 53) <= a)
    by (revert Hb; apply Qabs_case; intros; lra).
  destruct (fl (a - 360)) as [down |] eqn:Hdown; [| reflexivity].
  destruct (fl (a + 360)) as [up |] eqn:Hup; [| reflexivity].
  apply fl_Some in Hdown as (-> & _ & _).
  apply fl_Some in Hup as (-> & _ & _).
  destruct (Qlt_le_dec 180 a) as [H1 | H1];
    destruct (Qlt_le_dec a (-(180))) as [H2 | H2]; try lra;
    cbn [orb]; try reflexivity.
  - rewrite Qeq_bool_false; [reflexivity |].
    rewrite (round_representable _ (turn_down_exact a Hr H1 (proj1 Hhi))).
    lra.
  - rewrite Qeq_bool_false; [reflexivity |].
    rewrite (round_representable _ (turn_up_exact a Hr H2 (proj2 Hhi))).
    lra.
Qed.

Lemma tests_enough (a : Q) :
  representable a -> Qabs a <= inject_Z (2 ^ 53) ->
  exists n,
    tests (Some a) = S n
    /\ a - 180 <= 360 * inject_Z (Z.of_nat n)
    /\ -(180) - a <= 360 * inject_Z (Z.of_nat n).
Proof.
  intros Hr Hb. unfold tests. rewrite (not_stuck a Hr Hb).
  eexists. split; [reflexivity |].
  assert (Hc : Qabs a / 180 <= inject_Z (Qceiling (Qabs a / 180)))
    by apply Qle_ceiling.
  assert (Hnn : (0 <= Qceiling (Qabs a / 180))%Z).
  { rewrite <- (Qceiling_Z 0). apply Qceiling_resp_le.
    apply Qle_shift_div_l; [reflexivity |].
    change (inject_Z 0) with 0. pose proof (Qabs_nonneg a). lra. }
  rewrite Z2Nat.id by exact Hnn.
  assert (Hdiv : Qabs a <= 180 * inject_Z (Qceiling (Qabs a / 180))).
  { assert (Hx : Qabs a == Qabs a / 180 * 180) by field.
    set (x := Qabs a / 180) in *. lra. }
  revert Hdiv. apply Qabs_case; intros; lra.
Qed.

Lemma normalizeAngle_returns (a : Q) :
  representable a -> Qabs a <= inject_Z (2 ^ 53) ->
  exists s,
    normalizeAngle (Some a) = Some s
    /\ -(180) <= s <= 180
    /\ representable s
    /\ exists k : Z, s == a + 360 * inject_Z k.
Proof.
  intros Hr Hb. unfold normalizeAngle. cbv zeta.
  assert (Hhi : a <= inject_Z (2 ^ 53) /\ - inject_Z (2 ^ 53) <= a)
    by (revert Hb; apply Qabs_case; intros; lra).
  destruct (tests_enough a Hr Hb) as (n & -> & Hn & _).
  destruct (whileAbove_returns n a Hr (proj1 Hhi) Hn)
    as (s1 & -> & Hle & Hid & Hlow & Hr1 & k1 & Hk1).
  assert (Hb1 : Qabs s1 <= inject_Z (2 ^ 53)).
  { change (inject_Z (2 ^ 53)) with 9007199254740992 in *.
    destruct (Qlt_le_dec 180 a) as [H | H].
    - specialize (Hlow H). apply Qabs_case; intros; lra.
    - rewrite (Hid H). exact Hb. }
  destruct (tests_enough s1 Hr1 Hb1) as (n1 & -> & _ & Hn1).
  destruct (whileBelow_returns n1 s1 Hr1) as
    (s & -> & Hge & Hid' & Hup & Hrs & k & Hk); [| exact Hn1 |].
  { revert Hb1. apply Qabs_case; intros; lra. }
  exists s. split; [reflexivity |]. split.
  - split; [exact Hge |].
    destruct (Qlt_le_dec s1 (-(180))) as [H | H].
    + specialize (Hup H). lra.
    + rewrite (Hid' H). exact Hle.
  - split; [exact Hrs |]. exists (k - k1)%Z.
    unfold Z.sub. rewrite inject_Z_plus, inject_Z_opp. lra.
Qed.


Lemma eq_Qeq (a b : Q) : a = b -> a == b.
Proof. intros ->. reflexivity. Qed.

Lemma representable_small_int (z : Z) (q : Q) :
  q == inject_Z z -> (Z.abs z < 2 ^ 53)%Z ->
  representable q /\ - maxValue <= q /\ q <= maxValue.
Proof.
  intros Hq Hz. split; [exact (representable_int z q Hq Hz) |].
  assert (Hb : Qabs q <= maxValue).
  { apply small_bounded. rewrite Hq.
    change (Qabs (inject_Z z)) with (inject_Z (Z.abs z)).
    rewrite <- Zle_Qle. change (2 ^ 60)%Z with 1152921504606846976%Z.
    change (2 ^ 53)%Z with 9007199254740992%Z in Hz. lia. }
  apply Qabs_Qle_condition in Hb. lra.
Qed.

(** Rounding between two integers below [2^53]. *)
Lemma fl_between_int (q : Q) (lo hi : Z) :
  inject_Z lo <= q <= inject_Z hi ->
  (Z.abs lo < 2 ^ 53)%Z -> (Z.abs hi < 2 ^ 53)%Z ->
  exists r,
    fl q = Some r /\ r = round q /\ inject_Z lo <= r <= inject_Z hi
    /\ representable r.
Proof.
  intros Hq Hlo Hhi.
  destruct (representable_small_int lo (inject_Z lo) (Qeq_refl _) Hlo)
    as (R1 & B1 & _).
  destruct (representable_small_int hi (inject_Z hi) (Qeq_refl _) Hhi)
    as (R2 & _ & B2).
  destruct (fl_between q _ _ Hq R1 R2 B1 B2) as (r & Hfl & Hr & Hb).
  exists r. repeat (split; [assumption |]).
  now destruct (fl_Some q r Hfl) as (_ & _ & ?).
Qed.

(** The difference of two normalized angles, brought into the range. *)
Lemma shortestDelta_returns (s e : Q) :
  -(180) <= s <= 180 -> -(180) <= e <= 180 ->
  exists d,
    shortestDelta (Some s) (Some e) = Some d
    /\ -(180) <= d <= 180
    /\ representable d
    /\ exists j : Z,
         (-1 <= j <= 1)%Z
         /\ d == round (round (e - s) + 360 * inject_Z j).
Proof.
  intros Hs He. unfold shortestDelta. cbv zeta. rewrite sub_Some.
  destruct (fl_between_int (e - s) (-360) 360) as (x & -> & Hx & Hbx & Rx);
    [change (inject_Z (-360)) with (-(360));
     change (inject_Z 360) with 360; lra | reflexivity | reflexivity |].
  change (inject_Z (-360)) with (-(360)) in Hbx.
  change (inject_Z 360) with 360 in Hbx.
  rewrite double_180, lt_Some. cbn [mbind option_bind].
  destruct (Qlt_le_dec 180 x) as [Hover | Hnot].
  - rewrite double_360, sub_Some.
    destruct (fl_between_int (x - 360) (-180) 0) as (y & -> & Hy & Hby & Ry);
      [change (inject_Z (-180)) with (-(180));
       change (inject_Z 0) with 0; lra | reflexivity | reflexivity |].
    change (inject_Z (-180)) with (-(180)) in Hby.
    change (inject_Z 0) with 0 in Hby.
    rewrite double_minus_180, lt_Some. cbn [mbind option_bind].
    destruct (Qlt_le_dec y (-(180))) as [H | H]; [lra |].
    exists y. split; [reflexivity |]. split; [lra |].
    split; [exact Ry |]. exists (-1)%Z. split; [lia |].
    rewrite Hy, Hx. apply eq_Qeq, round_proper.
    change (inject_Z (-1)) with (-(1)). ring.
  - rewrite double_minus_180, lt_Some. cbn [mbind option_bind].
    destruct (Qlt_le_dec x (-(180))) as [Hunder | Hin].
    + rewrite double_360, add_Some.
      destruct (fl_between_int (x + 360) 0 180) as (y & -> & Hy & Hby & Ry);
        [change (inject_Z 180) with 180;
         change (inject_Z 0) with 0; lra | reflexivity | reflexivity |].
      change (inject_Z 180) with 180 in Hby.
      change (inject_Z 0) with 0 in Hby.
      exists y. split; [reflexivity |]. split; [lra |].
      split; [exact Ry |]. exists 1%Z. split; [lia |].
      rewrite Hy, Hx. apply eq_Qeq, round_proper.
      change (inject_Z 1) with 1. ring.
    + exists x. split; [reflexivity |]. split; [lra |].
      split; [exact Rx |]. exists 0%Z. split; [lia |].
      rewrite Hx. rewrite <- (round_idempotent (e - s)) at 1.
      apply eq_Qeq, round_proper.
      change (inject_Z 0) with 0. ring.
Qed.

(** The last step of [interpolateAngle]. *)
Lemma scaled_angle_returns (s d eased : Q) :
  -(180) <= s <= 180 -> -(180) <= d <= 180 ->
  Qabs eased <= inject_Z (2 ^ 40) ->
  exists r,
    normalizeAngle (Some s ⊕ Some d ⊗ Some eased) = Some r
    /\ -(180) <= r <= 180.
Proof.
  intros Hs Hd He. rewrite mul_Some.
  assert (Hp : Qabs (d * eased) <= inject_Z (180 * 2 ^ 40)).
  { rewrite Qabs_Qmult, inject_Z_mult.
    apply Qle_trans with (180 * Qabs eased).
    - apply Qmult_le_compat_r; [| apply Qabs_nonneg].
      apply Qabs_case; intros; lra.
    - change (inject_Z 180) with 180.
      apply Qmult_le_l; [reflexivity | exact He]. }
  apply Qabs_Qle_condition in Hp. rewrite <- inject_Z_opp in Hp.
  destruct (fl_between_int (d * eased) (- (180 * 2 ^ 40)) (180 * 2 ^ 40) Hp)
    as (p & -> & _ & Hbp & _); [reflexivity | reflexivity |].
  rewrite add_Some.
  destruct (fl_between_int (s + p) (- 2 ^ 48) (2 ^ 48)) as
    (q & -> & _ & Hbq & Rq); [| reflexivity | reflexivity |].
  { rewrite inject_Z_opp in Hbp |- *.
    change (inject_Z (180 * 2 ^ 40)) with 197912092999680 in Hbp.
    change (inject_Z (2 ^ 48)) with 281474976710656. lra. }
  destruct (normalizeAngle_returns q Rq) as (r & Hr & Hb & _).
  { rewrite inject_Z_opp in Hbq.
    change (inject_Z (2 ^ 48)) with 281474976710656 in Hbq.
    change (inject_Z (2 ^ 53)) with 9007199254740992.
    apply Qabs_case; intros; lra. }
  now exists r.
Qed.

End AngleFacts.

Section EasingFacts.
Import Double Interpolation.
Context {engine : Engine}.

Lemma easingKinds_cases (type : string) :
  In type easingKinds ->
  type = "linear"%string \/ type = "easeIn"%string
  \/ type = "easeOut"%string \/ type = "easeInOut"%string
  \/ type = "bezier"%string.
Proof.
  cbn [easingKinds In].
  intros [<- | [<- | [<- | [<- | [<- | []]]]]]; tauto.
Qed.

(** What the engines agree on: [Math.pow(1, 3)] is 1 and [Math.pow(0, 3)]
    is 0. *)
Hypothesis pow_one : mathPow 1 3 = Some 1.
Hypothesis pow_zero : mathPow 0 3 = Some 0.

Lemma easeOut_0 : easeOut (Some 0) = Some 0.
Proof.
  unfold easeOut, pow.
  replace (double 1 ⊖ Some 0) with (Some 1) by (vm_compute; reflexivity).
  replace (double 3) with (Some 3) by (vm_compute; reflexivity).
  cbn [mbind option_bind]. rewrite pow_one. vm_compute. reflexivity.
Qed.

Lemma easeOut_1 : easeOut (Some 1) = Some 1.
Proof.
  unfold easeOut, pow.
  replace (double 1 ⊖ Some 1) with (Some 0) by (vm_compute; reflexivity).
  replace (double 3) with (Some 3) by (vm_compute; reflexivity).
  cbn [mbind option_bind]. rewrite pow_zero. vm_compute. reflexivity.
Qed.

Lemma easeInOut_0 : easeInOut (Some 0) = Some 0.
Proof.
  unfold easeInOut.
  replace (lt (Some 0) (double 0.5)) with (Some true)
    by (vm_compute; reflexivity).
  vm_compute. reflexivity.
Qed.

Lemma easeInOut_1 : easeInOut (Some 1) = Some 1.
Proof.
  unfold easeInOut, pow.
  replace (lt (Some 1) (double 0.5)) with (Some false)
    by (vm_compute; reflexivity).
  cbn [mbind option_bind].
  replace (double (-2) ⊗ Some 1 ⊕ double 2) with (Some 0)
    by (vm_compute; reflexivity).
  replace (double 3) with (Some 3) by (vm_compute; reflexivity).
  cbn [mbind option_bind]. rewrite pow_zero. vm_compute. reflexivity.
Qed.

Lemma easedT_0 (type : string) :
  In type easingKinds -> easedT type (Some 0) = Some 0.
Proof.
  intros Hk.
  destruct (easingKinds_cases type Hk) as [-> | [-> | [-> | [-> | ->]]]];
    unfold easedT; cbn [String.eqb Ascii.eqb Bool.eqb].
  - reflexivity.
  - vm_compute. reflexivity.
  - apply easeOut_0.
  - apply easeInOut_0.
  - vm_compute. reflexivity.
Qed.

Lemma easedT_1 (type : string) :
  In type easingKinds -> easedT type (Some 1) = Some 1.
Proof.
  intros Hk.
  destruct (easingKinds_cases type Hk) as [-> | [-> | [-> | [-> | ->]]]];
    unfold easedT; cbn [String.eqb Ascii.eqb Bool.eqb].
  - reflexivity.
  - vm_compute. reflexivity.
  - apply easeOut_1.
  - apply easeInOut_1.
  - vm_compute. reflexivity.
Qed.


Lemma round_canonical (q : Q) : Qred (round q) = round q.
Proof.
  unfold round. cbv zeta.
  destruct (Qeq_bool (Qred q) 0);
    [reflexivity | apply Qred_complete, Qred_correct].
Qed.

Lemma round_round (q : Q) : round (round q) = round q.
Proof.
  transitivity (Qred (round (round q)));
    [symmetry; apply round_canonical |].
  transitivity (Qred (round q));
    [apply Qred_complete, round_idempotent | apply round_canonical].
Qed.

(** The result of an operation is a double. *)
Lemma operation_double (x y : option Q) (r : Q) :
  x ⊕ y = Some r \/ x ⊖ y = Some r \/ x ⊗ y = Some r ->
  representable r /\ Qabs r <= maxValue.
Proof.
  destruct x as [a |], y as [b |]; cbn [add sub mul mbind option_bind];
    intros [H | [H | H]]; try discriminate;
    apply fl_Some in H; tauto.
Qed.

Lemma times_zero (x : option Q) : is_Some x -> x ⊗ Some 0 = Some 0.
Proof.
  intros [r ->]. rewrite mul_Some, (fl_proper (r * 0) 0) by ring.
  reflexivity.
Qed.

Lemma zero_plus (r : Q) :
  representable r -> Qabs r <= maxValue -> is_Some (Some 0 ⊕ Some r).
Proof.
  intros Hr Hb. rewrite add_Some, (fl_proper (0 + r) r) by ring.
  destruct (fl_exact r Hr Hb) as (r' & -> & _). now exists r'.
Qed.

(** A cubic without constant term, evaluated at 0 in Horner form. *)
Lemma horner_0 (a b c : option Q) (rb rc : Q) :
  is_Some a ->
  b = Some rb -> representable rb -> Qabs rb <= maxValue ->
  c = Some rc -> representable rc -> Qabs rc <= maxValue ->
  ((a ⊗ Some 0 ⊕ b) ⊗ Some 0 ⊕ c) ⊗ Some 0 = Some 0.
Proof.
  intros Ha -> Hrb Hbb -> Hrc Hbc.
  rewrite (times_zero a Ha).
  rewrite (times_zero _ (zero_plus rb Hrb Hbb)).
  apply times_zero, zero_plus; assumption.
Qed.

Lemma coefficients (p q : option Q) :
  is_Some (double 1 ⊖ double 3 ⊗ p ⊖ (double 3 ⊗ (q ⊖ p) ⊖ double 3 ⊗ p)) ->
  exists rc rb,
    double 3 ⊗ p = Some rc /\ representable rc /\ Qabs rc <= maxValue
    /\ double 3 ⊗ (q ⊖ p) ⊖ double 3 ⊗ p = Some rb
    /\ representable rb /\ Qabs rb <= maxValue.
Proof.
  intros [r Hr].
  destruct (double 3 ⊗ p) as [rc |] eqn:Hc.
  2: { replace (double 1) with (Some 1) in Hr by (vm_compute; reflexivity).
       discriminate. }
  destruct (double 3 ⊗ (q ⊖ p) ⊖ Some rc) as [rb |] eqn:Hb.
  2: { destruct (double 1 ⊖ Some rc); discriminate. }
  exists rc, rb.
  destruct (operation_double _ _ rc (or_intror (or_intror Hc))) as [? ?].
  destruct (operation_double _ _ rb (or_intror (or_introl Hb))) as [? ?].
  tauto.
Qed.

Lemma newton_0 (p1 p3 : option Q) (n : nat) :
  sampleCurveX p1 p3 (Some 0) = Some 0 ->
  newton p1 p3 n (Some 0) (Some 0) = Some 0.
Proof.
  intros HX. destruct n as [| n]; [reflexivity |].
  cbn [newton]. rewrite HX.
  replace (lt (abs (Some 0 ⊖ Some 0)) (double 0.001)) with (Some true)
    by (vm_compute; reflexivity).
  reflexivity.
Qed.

Lemma bezier_0 (p1 p2 p3 p4 : option Q) :
  is_Some (ax p1 p3) -> is_Some (ay p2 p4) ->
  bezier p1 p2 p3 p4 (Some 0) = Some 0.
Proof.
  intros Hx Hy.
  destruct (coefficients p1 p3 Hx) as (rc & rb & Hc & Rc & Bc & Hb & Rb & Bb).
  destruct (coefficients p2 p4 Hy)
    as (rc' & rb' & Hc' & Rc' & Bc' & Hb' & Rb' & Bb').
  unfold bezier. rewrite newton_0.
  - exact (horner_0 _ _ _ rb' rc' Hy Hb' Rb' Bb' Hc' Rc' Bc').
  - exact (horner_0 _ _ _ rb rc Hx Hb Rb Bb Hc Rc Bc).
Qed.

Lemma interpolate_at_0 (a b : Q) (type : string) :
  isDouble a = true -> Qabs (b - a) <= maxValue ->
  In type easingKinds ->
  returns (interpolate (Some a) (Some b) (Some 0) type) a.
Proof.
  intros Ha Hd Hk. unfold interpolate. cbv zeta.
  rewrite (easedT_0 type Hk), sub_Some.
  destruct (fl_bounded (b - a) Hd) as (d & -> & _).
  rewrite mul_Some, (fl_proper (d * 0) 0) by ring.
  replace (fl 0) with (Some 0) by reflexivity.
  rewrite add_Some, (fl_proper (a + 0) a) by ring.
  now destruct (isDouble_true a Ha) as (_ & _ & ?).
Qed.

Lemma interpolate_at_1 (a b : Q) (type : string) :
  Qabs (b - a) <= maxValue -> In type easingKinds ->
  interpolate (Some a) (Some b) (Some 1) type = fl (a + round (b - a)).
Proof.
  intros Hd Hk. unfold interpolate. cbv zeta.
  rewrite (easedT_1 type Hk), sub_Some.
  destruct (fl_bounded (b - a) Hd) as (d & Hfl & ->). rewrite Hfl.
  rewrite mul_Some, (fl_proper (round (b - a) * 1) (round (b - a))) by ring.
  destruct (fl_Some _ _ Hfl) as (_ & Hb & _).
  rewrite (fl_round (round (b - a))) by now rewrite round_round.
  now rewrite round_round, add_Some.
Qed.

End EasingFacts.

(** ** [Array.prototype.sort] with the comparator [a.key - b.key] *)

Section ArraySortFacts.
Context {A : Type} (key : A -> Q).

#[local] Abbreviation compare := (fun a b : A => key a - key b).
#[local] Abbreviation before := (fun a b : A => key a <= key b).

#[local] Instance before_transitive : Transitive before.
Proof. intros a b c Hab Hbc. simpl in *. lra. Qed.

Lemma sortInsert_Permutation (x : A) (l : list A) :
  Permutation (sortInsert compare x l) (x :: l).
Proof.
  induction l as [| y l IH]; cbn [sortInsert]; [reflexivity |].
  destruct (Qlt_le_dec 0 (key x - key y)); [| reflexivity].
  rewrite IH. apply perm_swap.
Qed.

Lemma arraySort_Permutation (l : list A) :
  Permutation (arraySort compare l) l.
Proof.
  induction l as [| x l IH]; [reflexivity |].
  unfold arraySort in *. cbn [foldr].
  rewrite sortInsert_Permutation. now apply perm_skip.
Qed.

Lemma sortInsert_HdRel (x y : A) (l : list A) :
  key y <= key x -> HdRel before y l ->
  HdRel before y (sortInsert compare x l).
Proof.
  intros Hyx Hhd. destruct l as [| z l]; cbn [sortInsert].
  - now constructor.
  - destruct (Qlt_le_dec 0 (key x - key z)); constructor;
      solve [assumption | now inversion Hhd].
Qed.

Lemma sortInsert_Sorted (x : A) (l : list A) :
  Sorted before l -> Sorted before (sortInsert compare x l).
Proof.
  induction 1 as [| y l Hl IH Hhd]; cbn [sortInsert].
  - repeat constructor.
  - destruct (Qlt_le_dec 0 (key x - key y)) as [Hgt | Hle].
    + constructor; [exact IH |]. apply sortInsert_HdRel; [lra | exact Hhd].
    + constructor; [now constructor |]. constructor. lra.
Qed.

Lemma arraySort_Sorted (l : list A) : Sorted before (arraySort compare l).
Proof.
  induction l as [| x l IH]; [constructor |].
  unfold arraySort in *. cbn [foldr]. now apply sortInsert_Sorted.
Qed.

(** Sorting is stable: an array that is in order is left as it is. *)
Lemma arraySort_id (l : list A) :
  Sorted before l -> arraySort compare l = l.
Proof.
  induction 1 as [| x l Hl IH Hhd]; [reflexivity |].
  unfold arraySort in *. cbn [foldr]. rewrite IH.
  destruct Hhd as [| y l Hxy]; cbn [sortInsert]; [reflexivity |].
  destruct (Qlt_le_dec 0 (key x - key y)); [lra | reflexivity].
Qed.

Lemma StronglySorted_delete (R : A -> A -> Prop) (i : nat) (l : list A) :
  StronglySorted R l -> StronglySorted R (delete i l).
Proof.
  intros Hl. revert i.
  induction Hl as [| x l Hl IH Hall]; intros [| i]; cbn;
    [constructor | constructor | exact Hl |].
  constructor; [apply IH | now apply Forall_delete].
Qed.

Lemma Sorted_delete (i : nat) (l : list A) :
  Sorted before l -> Sorted before (delete i l).
Proof.
  intros Hl. apply StronglySorted_Sorted, StronglySorted_delete.
  now apply Sorted.Sorted_StronglySorted; [apply before_transitive |].
Qed.

End ArraySortFacts.

(** ** Claims on the interpolation library *)




(** C7, as amended.  For doubles [start] and [end_] of magnitude at most
    [2^53] and every [t] and easing name at which the eased value is a
    finite number of magnitude at most [2^40], [interpolateAngle]
    returns.  It brings both inputs into the closed interval from -180
    to 180 by whole turns, exactly; the difference it scales lies in
    that interval and is the rounded difference of the two, moved by at
    most one turn; and the result lies in the closed interval from -180
    to 180, whose lower end is included.  [interpolateAngle 350 10 0.5]
    is 0. *)
Theorem interpolateAngle_closed_range {engine : Engine}
    (start end_ t eased : Q) (type : string) :
  Double.isDouble start = true -> Double.isDouble end_ = true ->
  Qabs start <= 9007199254740992 -> Qabs end_ <= 9007199254740992 ->
  Interpolation.easedT type (Some t) = Some eased ->
  Qabs eased <= 1099511627776 ->
  (exists s e d r : Q,
     Interpolation.normalizeAngle (Some start) = Some s
     /\ -(180) <= s <= 180
     /\ (exists k : Z, s == start + 360 * inject_Z k)
     /\ Interpolation.normalizeAngle (Some end_) = Some e
     /\ -(180) <= e <= 180
     /\ (exists k : Z, e == end_ + 360 * inject_Z k)
     /\ Interpolation.shortestDelta (Some s) (Some e) = Some d
     /\ -(180) <= d <= 180
     /\ (exists j : Z,
           (-1 <= j <= 1)%Z
           /\ d == Double.round (Double.round (e - s) + 360 * inject_Z j))
     /\ Interpolation.interpolateAngle (Some start) (Some end_) (Some t) type
        = Some r
     /\ Interpolation.normalizeAngle (Some s ⊕ Some d ⊗ Some eased) = Some r
     /\ -(180) <= r <= 180)
  /\ Interpolation.interpolateAngle (Some 350) (Some 10) (Some 0.5) "linear"
     = Some 0.
Proof.
  intros Hs He Bs Be Heased Beased.
  split; [| vm_compute; reflexivity].
  destruct (isDouble_true start Hs) as (Rs & _ & _).
  destruct (isDouble_true end_ He) as (Re & _ & _).
  destruct (normalizeAngle_returns start Rs Bs) as (s & Hns & Bns & _ & Ks).
  destruct (normalizeAngle_returns end_ Re Be) as (e & Hne & Bne & _ & Ke).
  destruct (shortestDelta_returns s e Bns Bne) as (d & Hd & Bd & _ & Jd).
  destruct (scaled_angle_returns s d eased Bns Bd Beased) as (r & Hr & Br).
  exists s, e, d, r.
  repeat (split; [assumption |]).
  split; [| split; assumption].
  unfold Interpolation.interpolateAngle. cbv zeta.
  now rewrite Heased, Hns, Hne, Hd.
Qed.

(** From 350 to 10 degrees, half way, with [easeInOut]. *)
Lemma interpolateAngle_closed_range_witness :
  exists r : Q,
    Interpolation.interpolateAngle (engine := Demo.engine)
      (Some 350) (Some 10) (Some 0.5) "easeInOut" = Some r
    /\ -(180) <= r <= 180.
Proof.
  destruct (interpolateAngle_closed_range (engine := Demo.engine)
              350 10 0.5 (1 # 2) "easeInOut") as
    ((s & e & d & r & _ & _ & _ & _ & _ & _ & _ & _ & _ & Hr & _ & Br) & _).
  - vm_compute. reflexivity.
  - vm_compute. reflexivity.
  - vm_compute. discriminate.
  - vm_compute. discriminate.
  - vm_compute. reflexivity.
  - vm_compute. discriminate.
  - exists r. split; [exact Hr | exact Br].
Defined.

(** C7 as stated fails at the lower end of the interval: the angle -180
    is kept as it is, on every engine, so the result is not in the
    half-open interval that excludes -180. *)
Lemma interpolateAngle_keeps_minus_180 :
  exists r : Q,
    (forall engine : Engine,
       Interpolation.interpolateAngle (Some (-(180))) (Some (-(180)))
         (Some 0) "linear" = Some r)
    /\ ~ -(180) < r.
Proof.
  exists (-(180)). split; [intros engine; vm_compute; reflexivity |].
  apply Qle_not_lt. discriminate.
Qed.

(** Two more ways in which the claim as stated fails, both outside the
    amended claim.  At [1e19] a step of 360 rounds back to [1e19]: the
    first loop never ends, whatever the number of tests allowed. *)
Lemma whileAbove_never_ends (n : nat) :
  Interpolation.whileAbove n (Some 10000000000000000000) = None.
Proof.
  induction n as [| n IH]; [reflexivity |].
  cbn [Interpolation.whileAbove].
  replace (Double.lt (Double.double 180) (Some 10000000000000000000))
    with (Some true) by (vm_compute; reflexivity).
  cbn [mbind option_bind].
  replace (Some 10000000000000000000 ⊖ Double.double 360)
    with (Some 10000000000000000000) by (vm_compute; reflexivity).
  exact IH.
Qed.

Lemma interpolateAngle_never_returns {engine : Engine} (end_ t : option Q)
    (type : string) :
  Interpolation.interpolateAngle (Some 10000000000000000000) end_ t type
  = None.
Proof.
  unfold Interpolation.interpolateAngle, Interpolation.normalizeAngle.
  cbv zeta. rewrite whileAbove_never_ends. reflexivity.
Qed.

(** A name such as [slerp] is found on the object and called: there is
    no number to scale the difference by. *)
Lemma interpolateAngle_other_member {engine : Engine} (start end_ t : Q) :
  Interpolation.interpolateAngle (Some start) (Some end_) (Some t) "slerp"
  = None.
Proof.
  unfold Interpolation.interpolateAngle. cbv zeta.
  replace (Interpolation.easedT "slerp" (Some t)) with (@None Q)
    by reflexivity.
  destruct (Interpolation.normalizeAngle (Some start)) as [s |];
    [| reflexivity].
  destruct (Interpolation.normalizeAngle (Some end_)) as [e |].
  - destruct (Interpolation.shortestDelta (Some s) (Some e)); reflexivity.
  - reflexivity.
Qed.

(** ** Keyframes and the timeline *)

Section KeyframeManagerFacts.
Import KeyframeManager.

Lemma Sorted_map_iff {A B : Type} (f : A -> B) (R : B -> B -> Prop)
    (l : list A) :
  Sorted R (map f l) <-> Sorted (fun a b => R (f a) (f b)) l.
Proof.
  induction l as [| x l IH]; cbn [map]; [split; constructor |].
  split; intros Hs; inversion Hs as [| ? ? Hl Hhd]; subst;
    (constructor; [now apply IH |]);
    destruct l; cbn [map] in *; constructor; now inversion Hhd.
Qed.

(** Sortedness of the array only depends on the times of its elements. *)
Lemma sorted_times (st : list Keyframe.t) (l : list nat) :
  Sorted (fun a b => timeOf st a <= timeOf st b) l
  <-> Sorted (fun j k => Keyframe.time j <= Keyframe.time k)
             (map (fun a => st !!! a) l).
Proof.
  symmetry.
  apply (Sorted_map_iff (fun a => st !!! a)
           (fun j k => Keyframe.time j <= Keyframe.time k)).
Qed.

Lemma map_lookup_ext (st st' : list Keyframe.t) (l : list nat) :
  Forall (fun a => st' !!! a = st !!! a) l ->
  map (fun a => st' !!! a) l = map (fun a => st !!! a) l.
Proof.
  induction 1 as [| a l Ha _ IH]; cbn [map]; [reflexivity |].
  now rewrite Ha, IH.
Qed.

(** Creating an object does not disturb the objects that exist. *)
Lemma lookup_allocated (st : list Keyframe.t) (k : Keyframe.t)
    (l : list nat) :
  Forall (fun a => (a < length st)%nat) l ->
  map (fun a => (st ++ [k]) !!! a) l = map (fun a => st !!! a) l.
Proof.
  intros Hwf. apply map_lookup_ext.
  eapply Forall_impl; [exact Hwf |].
  intros a Ha. now apply lookup_total_app_l.
Qed.

Lemma allocate_invariant (k : Keyframe.t) (m : t) :
  sorted m /\ wellFormed m ->
  sorted (snd (allocate k m)) /\ wellFormed (snd (allocate k m)).
Proof.
  unfold sorted, wellFormed. cbn. intros [Hs Hwf]. split.
  - apply sorted_times. rewrite lookup_allocated by exact Hwf.
    now apply sorted_times.
  - eapply Forall_impl; [exact Hwf |].
    intros a Ha. cbv beta in Ha. rewrite length_app. cbn. lia.
Qed.

Lemma addKeyframe_sorted (kf : nat) (m : t) : sorted (addKeyframe kf m).
Proof. unfold sorted. cbn. apply (arraySort_Sorted (timeOf (store m))). Qed.

Lemma updateKeyframe_sorted (kf : nat) (newData : Keyframe.patch) (m : t) :
  sorted (updateKeyframe kf newData m).
Proof.
  unfold sorted. cbn.
  apply (arraySort_Sorted
           (timeOf (alter (Keyframe.assign newData) kf (store m)))).
Qed.

Lemma removeKeyframe_keyframes (kf : nat) (m : t) :
  store (snd (removeKeyframe kf m)) = store m
  /\ keyframes (snd (removeKeyframe kf m))
     = match indexOf kf (keyframes m) with
       | Some index => delete index (keyframes m)
       | None => keyframes m
       end.
Proof.
  unfold removeKeyframe. destruct (indexOf kf (keyframes m)); cbn;
    [| tauto].
  destruct (decide (selectedKeyframe m = Some kf)); cbn; tauto.
Qed.

Lemma removeKeyframe_sorted (kf : nat) (m : t) :
  sorted m -> sorted (snd (removeKeyframe kf m)).
Proof.
  unfold sorted. destruct (removeKeyframe_keyframes kf m) as [-> ->].
  destruct (indexOf kf (keyframes m)); [| tauto].
  apply (Sorted_delete (timeOf (store m))).
Qed.

Lemma addKeyframe_wellFormed (kf : nat) (m : t) :
  (kf < length (store m))%nat -> wellFormed m ->
  wellFormed (addKeyframe kf m).
Proof.
  unfold wellFormed. cbn. intros Hkf Hwf.
  eapply Permutation_Forall;
    [symmetry; apply (arraySort_Permutation (timeOf (store m))) |].
  apply Forall_app. split; [exact Hwf | now repeat constructor].
Qed.

Lemma updateKeyframe_wellFormed (kf : nat) (newData : Keyframe.patch)
    (m : t) :
  wellFormed m -> wellFormed (updateKeyframe kf newData m).
Proof.
  unfold wellFormed. cbn. intros Hwf. rewrite length_alter.
  eapply Permutation_Forall; [| exact Hwf].
  symmetry.
  apply (arraySort_Permutation
           (timeOf (alter (Keyframe.assign newData) kf (store m)))).
Qed.

Lemma removeKeyframe_wellFormed (kf : nat) (m : t) :
  wellFormed m -> wellFormed (snd (removeKeyframe kf m)).
Proof.
  unfold wellFormed. destruct (removeKeyframe_keyframes kf m) as [-> ->].
  destruct (indexOf kf (keyframes m)); [| tauto].
  apply Forall_delete.
Qed.

Lemma importOne_invariant (m : t) (kfData : KeyframeJSON.t) :
  sorted m /\ wellFormed m ->
  sorted (importOne m kfData) /\ wellFormed (importOne m kfData).
Proof.
  intros Hm. unfold importOne.
  destruct (allocate (Keyframe.fromJSON kfData) m) as [kf m'] eqn:Ha.
  pose proof (allocate_invariant (Keyframe.fromJSON kfData) m Hm) as Hm'.
  rewrite Ha in Hm'. cbn [snd] in Hm'.
  split; [apply addKeyframe_sorted |].
  apply addKeyframe_wellFormed; [| tauto].
  unfold allocate in Ha. injection Ha as <- <-. cbn.
  rewrite length_app. cbn. lia.
Qed.

Lemma import_invariant (kfs : list KeyframeJSON.t) : forall m,
  sorted m /\ wellFormed m ->
  sorted (foldl importOne m kfs) /\ wellFormed (foldl importOne m kfs).
Proof.
  induction kfs as [| d kfs IH]; intros m Hm; cbn [foldl]; [exact Hm |].
  apply IH, importOne_invariant, Hm.
Qed.

Lemma clear_invariant (m : t) : sorted (clear m) /\ wellFormed (clear m).
Proof. split; constructor. Qed.

(** The invariant of the timeline. *)
Lemma reachable_invariant (m : t) : reachable m -> sorted m /\ wellFormed m.
Proof.
  induction 1 as [| k m _ IH | kf m _ IH Hkf | kf m _ IH
                 | kf newData m _ IH Hkf | kf m _ IH | m _ IH
                 | data m _ IH].
  - split; constructor.
  - now apply allocate_invariant.
  - split; [apply addKeyframe_sorted | now apply addKeyframe_wellFormed].
  - split; [now apply removeKeyframe_sorted
           | now apply removeKeyframe_wellFormed].
  - split; [apply updateKeyframe_sorted
           | now apply updateKeyframe_wellFormed].
  - exact IH.
  - apply clear_invariant.
  - unfold importFromJSON.
    destruct (documentKeyframes data);
      [apply import_invariant |]; apply clear_invariant.
Qed.

End KeyframeManagerFacts.


Lemma demo_edited_reachable : KeyframeManager.reachable Demo.edited.
Proof.
  unfold Demo.edited, Demo.timeline, Demo.addNew.
  apply KeyframeManager.reachable_remove.
  apply KeyframeManager.reachable_update; [| cbn; lia].
  repeat (cbn [KeyframeManager.allocate]; first
    [ apply KeyframeManager.reachable_add; [| cbn; lia]
    | apply (KeyframeManager.reachable_new _ _)
    | apply KeyframeManager.reachable_empty ]).
Qed.


(** *** Sampling *)

Section SamplingFacts.
Import KeyframeManager.

Variable st : list Keyframe.t.
Variable time : Q.

Lemma surrounding_before_first (kf : nat) (rest : list nat)
    (before : option nat) :
  time < timeOf st kf ->
  surrounding st time (kf :: rest) before = (before, Some kf).
Proof.
  intros Hlt. cbn [surrounding].
  destruct (Qlt_le_dec time (timeOf st kf)); [| lra].
  destruct (Qlt_le_dec (timeOf st kf) time); [lra | reflexivity].
Qed.

Lemma surrounding_after_last (init : list nat) (last : nat) :
  forall before,
  Forall (fun kf => timeOf st kf < time) (init ++ [last]) ->
  surrounding st time (init ++ [last]) before = (Some last, None).
Proof.
  induction init as [| kf init IH]; intros before Hall;
    inversion Hall as [| ? ? Hkf Hrest]; subst; cbn [app surrounding].
  - destruct (Qlt_le_dec time (timeOf st last)); [lra |].
    destruct (Qlt_le_dec (timeOf st last) time); [reflexivity | lra].
  - destruct (Qlt_le_dec time (timeOf st kf)); [lra |].
    destruct (Qlt_le_dec (timeOf st kf) time); [| lra].
    now apply IH.
Qed.

Lemma surrounding_exact (pre : list nat) (kf : nat) (post : list nat) :
  forall before,
  Forall (fun k => timeOf st k < time) pre ->
  timeOf st kf == time ->
  surrounding st time (pre ++ kf :: post) before = (Some kf, Some kf).
Proof.
  induction pre as [| k pre IH]; intros before Hall Heq;
    cbn [app surrounding].
  - destruct (Qlt_le_dec time (timeOf st kf)); [lra |].
    destruct (Qlt_le_dec (timeOf st kf) time); [lra | reflexivity].
  - inversion Hall as [| ? ? Hk Hpre]; subst.
    destruct (Qlt_le_dec time (timeOf st k)); [lra |].
    destruct (Qlt_le_dec (timeOf st k) time); [| lra].
    now apply IH.
Qed.

(** In a sorted array everything in front of an element is not later. *)
Lemma sorted_prefix_le (pre : list nat) (kf : nat) (post : list nat) :
  Sorted (fun a b => timeOf st a <= timeOf st b) (pre ++ kf :: post) ->
  Forall (fun k => timeOf st k <= timeOf st kf) pre.
Proof.
  intros Hs.
  apply (Sorted.Sorted_StronglySorted (before_transitive (timeOf st))) in Hs.
  apply Forall_forall. intros k Hk.
  apply (StronglySorted_app_1_elem_of _ _ _ _ _ Hs);
    [exact Hk | constructor].
Qed.

End SamplingFacts.

Lemma first_match (st : list Keyframe.t) (time : Q) (l : list nat)
    (kf : nat) :
  kf ∈ l -> KeyframeManager.timeOf st kf == time ->
  exists pre first post,
    l = pre ++ first :: post
    /\ Forall (fun k => ~ KeyframeManager.timeOf st k == time) pre
    /\ KeyframeManager.timeOf st first == time.
Proof.
  intros Hin Hkf. induction l as [| k l IH]; [now apply elem_of_nil in Hin |].
  destruct (Qeq_dec (KeyframeManager.timeOf st k) time) as [Hk | Hk].
  - exists [], k, l. repeat split; [constructor | exact Hk].
  - apply elem_of_cons in Hin as [-> | Hin]; [contradiction |].
    destruct (IH Hin) as (pre & first & post & -> & Hpre & Hfirst).
    exists (k :: pre), first, post.
    repeat split; [now constructor | exact Hfirst].
Qed.

(** C5, as amended.  For every sample time: with zero keyframes sampling
    returns the fixed default pose; before the first keyframe's time it
    returns the first keyframe's pose as it is; after the last keyframe's
    time it returns the last keyframe's pose as it is; and at a time that
    one or more keyframes have, it returns the pose of the first of them
    in the array, unchanged.  The pose of a keyframe is the object with
    its nine fields. *)
Theorem interpolateAt_clamps {engine : Engine} (m : KeyframeManager.t)
    (time : Q) :
  KeyframeManager.sorted m ->
  let st := KeyframeManager.store m in
  let pose (kf : nat) : KeyframeJSON.t + CameraData.t :=
    inl {| KeyframeJSON.time := Keyframe.time (st !!! kf);
           KeyframeJSON.latitude := Keyframe.latitude (st !!! kf);
           KeyframeJSON.longitude := Keyframe.longitude (st !!! kf);
           KeyframeJSON.height := Keyframe.height (st !!! kf);
           KeyframeJSON.heading := Keyframe.heading (st !!! kf);
           KeyframeJSON.pitch := Keyframe.pitch (st !!! kf);
           KeyframeJSON.roll := Keyframe.roll (st !!! kf);
           KeyframeJSON.fov := Some (Keyframe.fov (st !!! kf));
           KeyframeJSON.interpolationType :=
             Some (Keyframe.interpolationType (st !!! kf)) |} in
  KeyframeManager.defaultPose
  = CameraData.mk 35.6762 139.6503 10000 0 (-(45)) 0 (Some 60)
  /\ (KeyframeManager.keyframes m = [] ->
      KeyframeManager.interpolateAt time m
      = Some (inr KeyframeManager.defaultPose))
  /\ (forall first rest,
        KeyframeManager.keyframes m = first :: rest ->
        time < KeyframeManager.timeOf st first ->
        KeyframeManager.interpolateAt time m = Some (pose first))
  /\ (forall init last,
        KeyframeManager.keyframes m = init ++ [last] ->
        KeyframeManager.timeOf st last < time ->
        KeyframeManager.interpolateAt time m = Some (pose last))
  /\ (forall pre kf post,
        KeyframeManager.keyframes m = pre ++ kf :: post ->
        Forall (fun k => ~ KeyframeManager.timeOf st k == time) pre ->
        KeyframeManager.timeOf st kf == time ->
        KeyframeManager.interpolateAt time m = Some (pose kf))
  /\ (forall kf,
        kf ∈ KeyframeManager.keyframes m ->
        KeyframeManager.timeOf st kf == time ->
        exists first,
          first ∈ KeyframeManager.keyframes m
          /\ KeyframeManager.timeOf st first == time
          /\ KeyframeManager.interpolateAt time m = Some (pose first)).
Proof.
  intros Hs st pose. unfold KeyframeManager.sorted in Hs. fold st in Hs.
  assert (Hexact : forall pre kf post,
    KeyframeManager.keyframes m = pre ++ kf :: post ->
    Forall (fun k => ~ KeyframeManager.timeOf st k == time) pre ->
    KeyframeManager.timeOf st kf == time ->
    KeyframeManager.interpolateAt time m = Some (pose kf)).
  { intros pre kf post Hk Hne Heq.
    unfold KeyframeManager.interpolateAt,
      KeyframeManager.getSurroundingKeyframes. fold st. rewrite Hk in *.
    rewrite surrounding_exact, Nat.eqb_refl; [reflexivity | | exact Heq].
    pose proof (sorted_prefix_le st pre kf post Hs) as Hle.
    apply Forall_forall. intros k Hin.
    pose proof (proj1 (Forall_forall _ _) Hle k Hin) as H1.
    pose proof (proj1 (Forall_forall _ _) Hne k Hin) as H2.
    cbv beta in H1, H2. lra. }
  split; [reflexivity |].
  split.
  { intros Hk. unfold KeyframeManager.interpolateAt,
      KeyframeManager.getSurroundingKeyframes. now rewrite Hk. }
  split; [| split; [| split; [exact Hexact |]]].
  - intros first rest Hk Hlt.
    unfold KeyframeManager.interpolateAt,
      KeyframeManager.getSurroundingKeyframes. fold st. rewrite Hk.
    now rewrite surrounding_before_first.
  - intros init last Hk Hlt.
    unfold KeyframeManager.interpolateAt,
      KeyframeManager.getSurroundingKeyframes. fold st. rewrite Hk in *.
    rewrite surrounding_after_last; [reflexivity |].
    apply Forall_app. split; [| now repeat constructor].
    eapply Forall_impl; [apply (sorted_prefix_le st init last []), Hs |].
    intros k Hle. cbv beta in Hle. lra.
  - intros kf Hin Hkf.
    destruct (first_match st time _ kf Hin Hkf)
      as (pre & first & post & Hk & Hpre & Hfirst).
    exists first. split; [| split; [exact Hfirst |]].
    + rewrite Hk. apply elem_of_app. right. constructor.
    + exact (Hexact pre first post Hk Hpre Hfirst).
Qed.

(** A single keyframe at [time = 5], sampled at 0, 5 and 100. *)
Lemma interpolateAt_clamps_witness :
  let pose : KeyframeJSON.t + CameraData.t :=
    inl (KeyframeJSON.mk 5 35.6586 139.7454 500 0 (-(45)) 0 (Some 60)
                         (Some "easeInOut"%string)) in
  KeyframeManager.sorted Demo.single
  /\ KeyframeManager.interpolateAt (engine := Demo.engine) 0 Demo.single
     = Some pose
  /\ KeyframeManager.interpolateAt (engine := Demo.engine) 5 Demo.single
     = Some pose
  /\ KeyframeManager.interpolateAt (engine := Demo.engine) 100 Demo.single
     = Some pose.
Proof.
  assert (KeyframeManager.sorted Demo.single) as Hs
    by (repeat constructor).
  split; [exact Hs |].
  split; [| split].
  - apply (proj1 (proj2 (proj2
             (interpolateAt_clamps (engine := Demo.engine)
                Demo.single 0 Hs))) 0%nat []); reflexivity.
  - apply (proj1 (proj2 (proj2 (proj2 (proj2
             (interpolateAt_clamps (engine := Demo.engine)
                Demo.single 5 Hs))))) [] 0%nat []);
      [reflexivity | constructor | reflexivity].
  - apply (proj1 (proj2 (proj2 (proj2
             (interpolateAt_clamps (engine := Demo.engine)
                Demo.single 100 Hs)))) [] 0%nat);
      reflexivity.
Defined.

Lemma dup_reachable : KeyframeManager.reachable Demo.dup.
Proof.
  unfold Demo.dup, Demo.addNew. cbn [KeyframeManager.allocate].
  apply KeyframeManager.reachable_add; [| cbn; lia].
  apply (KeyframeManager.reachable_new _ _).
  apply KeyframeManager.reachable_add; [| cbn; lia].
  apply (KeyframeManager.reachable_new _ _),
    KeyframeManager.reachable_empty.
Qed.

(** C5 as stated fails for the second of two keyframes that share a
    time.  The timeline [Demo.dup] holds the keyframes 0 and 1, both at
    [time = 2], with heights 100 and 200; sampled at 2, the time of
    keyframe 1, it returns the pose of keyframe 0. *)
Lemma interpolateAt_first_of_equal_times :
  KeyframeManager.reachable Demo.dup
  /\ KeyframeManager.keyframes Demo.dup = [0; 1]%nat
  /\ KeyframeManager.timeOf (KeyframeManager.store Demo.dup) 1 == 2
  /\ Keyframe.height (KeyframeManager.store Demo.dup !!! 1%nat) == 200
  /\ exists pose : KeyframeJSON.t,
       (forall engine : Engine,
          KeyframeManager.interpolateAt 2 Demo.dup = Some (inl pose))
       /\ KeyframeJSON.height pose == 100.
Proof.
  split; [exact dup_reachable |].
  split; [reflexivity |]. split; [reflexivity |]. split; [reflexivity |].
  eexists. split; [intros engine; reflexivity | reflexivity].
Qed.

(** *** Documents *)

Section DocumentFacts.
Import KeyframeManager.

Lemma orDefault_nonzero (x : option Q) : ~ Keyframe.orDefault x 60 == 0.
Proof.
  destruct x as [v |]; cbn [Keyframe.orDefault]; [| discriminate].
  destruct (Qeq_bool v 0) eqn:Hv; [discriminate |].
  now apply Qeq_bool_neq.
Qed.

Lemma orDefault_zero (v : Q) : v == 0 -> Keyframe.orDefault (Some v) 60 = 60.
Proof.
  intros Hv. cbn [Keyframe.orDefault].
  now rewrite (Qeq_eq_bool _ _ Hv).
Qed.

Lemma fromJSON_toJSON (k : Keyframe.t) :
  ~ Keyframe.fov k == 0 -> Keyframe.fromJSON (Keyframe.toJSON k) = k.
Proof.
  intros Hfov. destruct k as [time lat lon h hd p r fov it].
  cbn [Keyframe.fov] in Hfov.
  unfold Keyframe.fromJSON, Keyframe.toJSON, Keyframe.new,
    Keyframe.orDefault.
  cbn -[Qeq_bool].
  destruct (Qeq_bool fov 0) eqn:Hv; [| reflexivity].
  apply Qeq_bool_eq in Hv. contradiction.
Qed.

Lemma importOne_store (m : t) (d : KeyframeJSON.t) :
  store (importOne m d) = store m ++ [Keyframe.fromJSON d].
Proof. reflexivity. Qed.

Lemma importOne_keyframes (m : t) (d : KeyframeJSON.t) :
  keyframes (importOne m d)
  = arraySort (fun a b => timeOf (store m ++ [Keyframe.fromJSON d]) a
                          - timeOf (store m ++ [Keyframe.fromJSON d]) b)
              (keyframes m ++ [length (store m)]).
Proof. reflexivity. Qed.

(** Adding a keyframe that is not earlier than the stored ones appends it. *)
Lemma importOne_contents (m : t) (d : KeyframeJSON.t) :
  wellFormed m ->
  Sorted (fun j k => Keyframe.time j <= Keyframe.time k)
         (contents m ++ [Keyframe.fromJSON d]) ->
  contents (importOne m d) = contents m ++ [Keyframe.fromJSON d].
Proof.
  intros Hwf Hs. unfold contents in *.
  rewrite importOne_keyframes, importOne_store.
  assert (map (fun kf => (store m ++ [Keyframe.fromJSON d]) !!! kf)
              (keyframes m ++ [length (store m)])
          = map (fun kf => store m !!! kf) (keyframes m)
            ++ [Keyframe.fromJSON d]) as Hmap.
  { rewrite map_app, lookup_allocated by exact Hwf. cbn [map].
    now rewrite list_lookup_total_middle. }
  rewrite (arraySort_id (timeOf (store m ++ [Keyframe.fromJSON d])));
    [exact Hmap |].
  apply sorted_times. now rewrite Hmap.
Qed.

Lemma Sorted_app_l {A : Type} (R : A -> A -> Prop) (l1 l2 : list A) :
  Sorted R (l1 ++ l2) -> Sorted R l1.
Proof.
  induction l1 as [| x l1 IH]; cbn [app]; intros Hs; [constructor |].
  inversion Hs as [| ? ? Hl Hhd]; subst. constructor; [now apply IH |].
  destruct l1; cbn [app] in *; constructor. now inversion Hhd.
Qed.

Lemma import_contents (kfs : list KeyframeJSON.t) : forall m,
  wellFormed m ->
  Sorted (fun j k => Keyframe.time j <= Keyframe.time k)
         (contents m ++ map Keyframe.fromJSON kfs) ->
  contents (foldl importOne m kfs)
  = contents m ++ map Keyframe.fromJSON kfs.
Proof.
  induction kfs as [| d kfs IH]; intros m Hwf Hs; cbn [foldl map] in *.
  - now rewrite app_nil_r.
  - change (Keyframe.fromJSON d :: map Keyframe.fromJSON kfs)
      with ([Keyframe.fromJSON d] ++ map Keyframe.fromJSON kfs) in *.
    rewrite app_assoc in Hs.
    assert (contents (importOne m d)
            = contents m ++ [Keyframe.fromJSON d]) as Hone
      by (apply importOne_contents;
          [exact Hwf | exact (Sorted_app_l _ _ _ Hs)]).
    rewrite IH.
    + now rewrite Hone, <- app_assoc.
    + apply importOne_invariant. split; [| exact Hwf].
      apply sorted_times. fold (contents m).
      exact (Sorted_app_l _ _ _ (Sorted_app_l _ _ _ Hs)).
    + now rewrite Hone.
Qed.

(** Whatever the order of the document, the imported objects are the
    results of [fromJSON]. *)
Lemma import_store (kfs : list KeyframeJSON.t) : forall m,
  store (foldl importOne m kfs) = store m ++ map Keyframe.fromJSON kfs
  /\ Permutation (keyframes (foldl importOne m kfs))
                 (keyframes m ++ seq (length (store m)) (length kfs)).
Proof.
  induction kfs as [| d kfs IH]; intros m; cbn [foldl map length seq].
  - now rewrite !app_nil_r.
  - destruct (IH (importOne m d)) as [-> Hp]. split.
    + now rewrite importOne_store, <- app_assoc.
    + rewrite Hp, importOne_keyframes, importOne_store.
      rewrite (arraySort_Permutation
                 (timeOf (store m ++ [Keyframe.fromJSON d]))).
      rewrite length_app, <- app_assoc. cbn [length app].
      now rewrite Nat.add_1_r.
Qed.

Lemma import_fov (kfs : list KeyframeJSON.t) (m : t) :
  keyframes m = [] ->
  Forall (fun k => ~ Keyframe.fov k == 0)
         (contents (foldl importOne m kfs)).
Proof.
  intros Hnil. unfold contents.
  destruct (import_store kfs m) as [-> Hp]. rewrite Hnil in Hp.
  apply List.Forall_map.
  eapply Permutation_Forall; [symmetry; exact Hp |].
  apply Forall_forall. intros a Ha.
  apply elem_of_seq in Ha.
  rewrite lookup_total_app_r by lia.
  destruct (map Keyframe.fromJSON kfs !! (a - length (store m))%nat)
    as [k |] eqn:Hk.
  - rewrite (list_lookup_total_correct _ _ _ Hk).
    apply list_elem_of_lookup_2, list_elem_of_In, in_map_iff in Hk.
    destruct Hk as [d [<- _]]. apply orDefault_nonzero.
  - apply lookup_ge_None in Hk. rewrite length_map in Hk. lia.
Qed.

End DocumentFacts.

(** C6, as amended.  For every timeline state (its keyframes sorted by
    time) in which no keyframe has [fov = 0], exporting the timeline to its
    document form and importing that document, into the same or any other
    manager, reproduces the identical ordered sequence of keyframes, field
    for field. *)
Theorem export_import_roundtrip (m target : KeyframeManager.t) :
  KeyframeManager.sorted m ->
  Forall (fun k => ~ Keyframe.fov k == 0) (KeyframeManager.contents m) ->
  KeyframeManager.contents
    (KeyframeManager.importFromJSON (KeyframeManager.exportToJSON m) target)
  = KeyframeManager.contents m.
Proof.
  intros Hs Hfov.
  unfold KeyframeManager.importFromJSON, KeyframeManager.exportToJSON.
  cbn [KeyframeManager.documentKeyframes].
  assert (map Keyframe.fromJSON
              (map (fun kf => Keyframe.toJSON
                                (KeyframeManager.store m !!! kf))
                   (KeyframeManager.keyframes m))
          = KeyframeManager.contents m) as Hback.
  { unfold KeyframeManager.contents in *. rewrite map_map.
    induction (KeyframeManager.keyframes m) as [| kf l IH];
      cbn [map] in *; [reflexivity |].
    inversion Hfov; subst. rewrite fromJSON_toJSON by assumption.
    f_equal. now apply IH. }
  rewrite import_contents.
  - now rewrite Hback.
  - constructor.
  - rewrite Hback. cbn [app KeyframeManager.contents].
    now apply sorted_times.
Qed.

Lemma export_import_roundtrip_witness :
  KeyframeManager.sorted Demo.timeline
  /\ Forall (fun k => ~ Keyframe.fov k == 0)
            (KeyframeManager.contents Demo.timeline)
  /\ KeyframeManager.contents
       (KeyframeManager.importFromJSON
          (KeyframeManager.exportToJSON Demo.timeline) Demo.timeline)
     = [Demo.kf1; Demo.kf2; Demo.kf3; Demo.kf4].
Proof.
  assert (KeyframeManager.sorted Demo.timeline) as Hs
    by (apply addKeyframe_sorted).
  assert (Forall (fun k => ~ Keyframe.fov k == 0)
                 (KeyframeManager.contents Demo.timeline)) as Hfov
    by (repeat constructor; discriminate).
  split; [exact Hs |]. split; [exact Hfov |].
  rewrite (export_import_roundtrip Demo.timeline Demo.timeline Hs Hfov).
  reflexivity.
Defined.

Lemma zeroFov_reachable : KeyframeManager.reachable Demo.zeroFov.
Proof.
  unfold Demo.zeroFov, Demo.addNew. cbn [KeyframeManager.allocate].
  apply KeyframeManager.reachable_update; [| cbn; lia].
  apply KeyframeManager.reachable_add; [| cbn; lia].
  apply (KeyframeManager.reachable_new _ _),
    KeyframeManager.reachable_empty.
Qed.

(** C6 as stated fails for a keyframe whose field of view is 0: it comes
    back from the document with a field of view of 60. *)
Lemma roundtrip_changes_zero_fov :
  KeyframeManager.reachable Demo.zeroFov
  /\ map Keyframe.fov (KeyframeManager.contents Demo.zeroFov) = [0]
  /\ map Keyframe.fov
       (KeyframeManager.contents
          (KeyframeManager.importFromJSON
             (KeyframeManager.exportToJSON Demo.zeroFov) Demo.zeroFov))
     = [60]
  /\ KeyframeManager.contents
       (KeyframeManager.importFromJSON
          (KeyframeManager.exportToJSON Demo.zeroFov) Demo.zeroFov)
     <> KeyframeManager.contents Demo.zeroFov.
Proof.
  split; [exact zeroFov_reachable |].
  split; [reflexivity |]. split; [reflexivity |].
  intros Heq. apply (f_equal (map Keyframe.fov)) in Heq.
  vm_compute in Heq. discriminate.
Qed.

(** C10, as amended.  The constructor, and hence [fromJSON], sets [fov] to
    60 when [cameraData.fov] is missing and also when it is 0; so no
    keyframe leaves the constructor or [fromJSON] with [fov = 0], a
    document keyframe with [fov = 0] is imported with [fov = 60], and no
    keyframe just imported from a document has [fov = 0]. *)
Theorem constructor_defaults_zero_fov :
  (forall time cameraData interpolationType,
     CameraData.fov cameraData = None ->
     Keyframe.fov (Keyframe.new time cameraData interpolationType) = 60)
  /\ (forall time cameraData interpolationType v,
        CameraData.fov cameraData = Some v -> v == 0 ->
        Keyframe.fov (Keyframe.new time cameraData interpolationType) = 60)
  /\ (forall time cameraData interpolationType,
        ~ Keyframe.fov (Keyframe.new time cameraData interpolationType) == 0)
  /\ (forall data, ~ Keyframe.fov (Keyframe.fromJSON data) == 0)
  /\ (forall data v,
        KeyframeJSON.fov data = Some v -> v == 0 ->
        Keyframe.fov (Keyframe.fromJSON data) = 60)
  /\ (forall version kfs m,
        Forall (fun k => ~ Keyframe.fov k == 0)
               (KeyframeManager.contents
                  (KeyframeManager.importFromJSON
                     (KeyframeManager.mkDocument version (Some kfs)) m))).
Proof.
  repeat split.
  - intros time cameraData interpolationType Hnone.
    cbn [Keyframe.new Keyframe.fov]. now rewrite Hnone.
  - intros time cameraData interpolationType v Hsome Hv.
    cbn [Keyframe.new Keyframe.fov]. rewrite Hsome.
    now apply orDefault_zero.
  - intros time cameraData interpolationType. apply orDefault_nonzero.
  - intros data. apply orDefault_nonzero.
  - intros data v Hsome Hv.
    cbn [Keyframe.fromJSON Keyframe.new Keyframe.fov CameraData.fov].
    rewrite Hsome. now apply orDefault_zero.
  - intros version kfs m. now apply import_fov.
Qed.

(** A document keyframe with [fov = 0] and one without [fov]. *)
Lemma constructor_defaults_zero_fov_witness :
  let data :=
    KeyframeJSON.mk 2 35.6586 139.7454 500 0 (-(45)) 0 (Some 0)
                    (Some "linear"%string) in
  KeyframeJSON.fov data = Some 0
  /\ Keyframe.fov (Keyframe.fromJSON data) = 60
  /\ Keyframe.fov
       (Keyframe.new 2 (CameraData.mk 35.6586 139.7454 500 0 (-(45)) 0 None)
                     None) = 60.
Proof.
  intros data. split; [reflexivity |]. split.
  - apply (proj1 (proj2 (proj2 (proj2 (proj2
             constructor_defaults_zero_fov)))) data 0);
      reflexivity.
  - apply (proj1 constructor_defaults_zero_fov). reflexivity.
Defined.

(** C10 as stated fails in its middle part: a keyframe of the timeline can
    carry [fov = 0], because [updateKeyframe] assigns the new fields
    directly. *)
Lemma update_sets_zero_fov :
  KeyframeManager.reachable Demo.zeroFov
  /\ KeyframeManager.keyframes Demo.zeroFov = [0%nat]
  /\ Keyframe.fov (KeyframeManager.store Demo.zeroFov !!! 0%nat) = 0.
Proof.
  split; [exact zeroFov_reachable |].
  split; reflexivity.
Qed.
